(** * httpd report generator: log-line parser, aggregation and report tables

    A shallow embedding of the report generator's core
    ([parseConnectionFromLine], [splitString], [getConnectionAttempts],
    the grouping loop of [main], [getSpacerStrings],
    [getLongestClientSource] and [printUniqueIpStats]) together with the
    properties of the parser, the aggregator and the formatter.

    Conventions of the embedding:
    - a [std::string] is a list of characters ([cstring]);
    - a [size_t] is a [Z] in [0, 2^64); additions and subtractions on
      offsets are wrapped explicitly with [wrap64], and [npos] is
      [2^64 - 1];
    - a call that may throw or whose behaviour the language leaves
      undefined returns an [outcome];
    - a [std::map<string, V>] is an association list kept in ascending
      key order, which is the order a range-for visits it in;
    - text written to [cout] is returned as a string; what a call has
      written before it throws is not kept, and the messages on [cerr]
      are left out. *)

From Stdlib Require Import ZArith List Ascii String Lia Bool.
From Stdlib Require Import OrdersEx Sorted Permutation RelationClasses.
Import ListNotations.

Local Open Scope Z_scope.

(** ** Outcomes of a call *)

Inductive outcome (A : Type) : Type :=
| Ret (a : A)     (* normal return *)
| Throw           (* a C++ exception leaves the call *)
| Undefined       (* the call has undefined behaviour *)
| NoFuel.         (* the model of a loop ran out of fuel *)

Arguments Ret {A} a.
Arguments Throw {A}.
Arguments Undefined {A}.
Arguments NoFuel {A}.

Definition bind {A B : Type} (m : outcome A) (k : A -> outcome B) : outcome B :=
  match m with
  | Ret a => k a
  | Throw => Throw
  | Undefined => Undefined
  | NoFuel => NoFuel
  end.

Notation "x <- m ;; k" := (bind m (fun x => k))
  (at level 61, m at next level, right associativity).

(** ** Machine integers *)

Definition wrap64 (z : Z) : Z := z mod 2 ^ 64.
Definition wrap32 (z : Z) : Z := z mod 2 ^ 32.

Definition npos : Z := 2 ^ 64 - 1.
Definition INT_MIN : Z := - 2 ^ 31.
Definition INT_MAX : Z := 2 ^ 31 - 1.

(** The longest string the library will build; a request for more throws
    [std::length_error]. This is the value of libstdc++ on a 64-bit
    target. *)
Definition max_size : Z := 2 ^ 62 - 1.

(** ** Strings *)

Definition cstring : Type := list ascii.

Definition str (s : string) : cstring := list_ascii_of_string s.

Definition size (s : cstring) : Z := Z.of_nat (List.length s).

(** [string(n, c)] *)
Definition fill (n : Z) (c : ascii) : outcome cstring :=
  if max_size <? n then Throw else Ret (repeat c (Z.to_nat n)).

(** [s.substr(pos, len)]: throws [std::out_of_range] when [pos > size()],
    otherwise the [min(len, size() - pos)] characters from [pos]. *)
Definition substr (s : cstring) (pos len : Z) : outcome cstring :=
  if size s <? pos then Throw
  else Ret (firstn (Z.to_nat (Z.min len (size s - pos))) (skipn (Z.to_nat pos) s)).

(** First index at which [p] holds. *)
Fixpoint index_where (p : ascii -> bool) (s : cstring) : option nat :=
  match s with
  | [] => None
  | c :: t => if p c then Some O else option_map S (index_where p t)
  end.

Definition find_where (p : ascii -> bool) (s : cstring) (pos : Z) : Z :=
  if size s <=? pos then npos
  else match index_where p (skipn (Z.to_nat pos) s) with
       | Some i => pos + Z.of_nat i
       | None => npos
       end.

Definition mem_ascii (c : ascii) (set : cstring) : bool :=
  existsb (Ascii.eqb c) set.

(** [s.find(c, pos)] *)
Definition find (s : cstring) (c : ascii) (pos : Z) : Z :=
  find_where (Ascii.eqb c) s pos.

(** [s.find_first_of(set, pos)] *)
Definition find_first_of (s set : cstring) (pos : Z) : Z :=
  find_where (fun c => mem_ascii c set) s pos.

(** [s.find_first_not_of(set, pos)] *)
Definition find_first_not_of (s set : cstring) (pos : Z) : Z :=
  find_where (fun c => negb (mem_ascii c set)) s pos.

(** [v[i]] on a [std::vector]: no bounds check, so an index past the end
    is undefined behaviour. *)
Definition at_index {A : Type} (v : list A) (i : nat) : outcome A :=
  match nth_error v i with
  | Some a => Ret a
  | None => Undefined
  end.

(** *** [atoi] *)

Definition isspace (c : ascii) : bool :=
  let n := N_of_ascii c in
  ((9 <=? n) && (n <=? 13) || (n =? 32))%N.

Definition isdigit (c : ascii) : bool :=
  let n := N_of_ascii c in
  ((48 <=? n) && (n <=? 57))%N.

Definition digit_value (c : ascii) : Z := Z.of_N (N_of_ascii c) - 48.

Fixpoint skip_spaces (s : cstring) : cstring :=
  match s with
  | c :: t => if isspace c then skip_spaces t else s
  | [] => []
  end.

(** Value of the longest prefix of decimal digits, [acc] being the value
    read so far. *)
Fixpoint read_digits (acc : Z) (s : cstring) : Z :=
  match s with
  | c :: t => if isdigit c then read_digits (10 * acc + digit_value c) t else acc
  | [] => acc
  end.

(** [atoi(s.c_str())]: leading white space, an optional sign, then the
    digits; 0 when there is no digit. A value that does not fit an [int]
    is undefined behaviour (C11 7.22.1). *)
Definition atoi (s : cstring) : outcome Z :=
  let s1 := skip_spaces s in
  let v :=
    match s1 with
    | "-"%char :: t => - read_digits 0 t
    | "+"%char :: t => read_digits 0 t
    | _ => read_digits 0 s1
    end in
  if (INT_MIN <=? v) && (v <=? INT_MAX) then Ret v else Undefined.

(** *** [std::to_string] on an unsigned value *)

Definition digit_char (d : Z) : ascii := ascii_of_N (Z.to_N (48 + d)).

Fixpoint to_string_fuel (fuel : nat) (n : Z) (acc : cstring) : cstring :=
  match fuel with
  | O => acc
  | S fuel' =>
      let acc' := digit_char (n mod 10) :: acc in
      if n <? 10 then acc' else to_string_fuel fuel' (n / 10) acc'
  end.

(** A 64-bit value has at most twenty decimal digits. *)
Definition to_string (n : Z) : cstring := to_string_fuel 20 n [].

(** ** [splitString] *)

(** The [while] loop of [splitString]; each turn either ends the loop at
    the next test or moves [pos] forward, so [size + 2] turns are enough
    ([splitString_returns] below). *)
Fixpoint splitString_loop (fuel : nat) (s delimiters : cstring)
    (lastPos pos : Z) (tokens : list cstring) : outcome (list cstring) :=
  if negb (npos =? pos) || negb (npos =? lastPos) then
    match fuel with
    | O => NoFuel
    | S fuel' =>
        tok <- substr s lastPos (wrap64 (pos - lastPos)) ;;
        let tokens := tokens ++ [tok] in
        let lastPos := if npos =? pos then npos else wrap64 (pos + 1) in
        let pos := find_first_of s delimiters lastPos in
        splitString_loop fuel' s delimiters lastPos pos tokens
    end
  else Ret tokens.

(** [splitString(str, delimiters, tokens)]: the tokens appended to
    [tokens] (the boolean result is not used by the caller). *)
Definition splitString (s delimiters : cstring) (tokens : list cstring)
    : outcome (list cstring) :=
  let lastPos := find_first_not_of s delimiters 0 in
  let pos := find_first_of s delimiters lastPos in
  splitString_loop (S (S (List.length s))) s delimiters lastPos pos tokens.

(** ** Connections *)

Record Connection : Type := mkConnection {
  clientSource : cstring;
  clientId : cstring;
  userId : cstring;
  timestamp : cstring;
  httpRequestMethod : cstring;
  requestUri : cstring;
  httpVersion : cstring;
  httpStatusCode : Z;   (* int32_t *)
  responseSize : Z      (* int64_t *)
}.

Definition SPACE : ascii := " "%char.

(** The double quote, character 34. *)
Definition QUOTE : ascii := Ascii false true false false false true false false.

(** The delimiters of the request: space, tab, line feed, carriage
    return. *)
Definition WHITESPACE : cstring :=
  [" "%char; ascii_of_nat 9; ascii_of_nat 10; ascii_of_nat 13].

(** ** [parseConnectionFromLine] *)

Definition parseConnectionFromLine (line : cstring) : outcome Connection :=
  let offset := 0 in
  let offset2 := find line SPACE 0 in
  clientSource <- substr line offset offset2 ;;
  let offset := wrap64 (offset2 + 1) in
  let offset2 := find line SPACE offset in
  clientId <- substr line offset (wrap64 (offset2 - offset)) ;;
  let offset := wrap64 (offset2 + 1) in
  let offset2 := find line SPACE offset in
  userId <- substr line offset (wrap64 (offset2 - offset)) ;;
  let offset := wrap64 (find line "["%char (wrap64 (offset2 + 1)) + 1) in
  let offset2 := find line "]"%char offset in
  timestamp <- substr line offset (wrap64 (offset2 - offset)) ;;
  let offset := wrap64 (find line QUOTE (wrap64 (offset2 + 1)) + 1) in
  let offset2 := find line QUOTE (wrap64 (offset + 1)) in
  request <- substr line offset (wrap64 (offset2 - offset)) ;;
  tokens <- splitString request WHITESPACE [] ;;
  httpRequestMethod <- at_index tokens 0 ;;
  requestUri <- at_index tokens 1 ;;
  httpVersion <- at_index tokens 2 ;;
  let offset := find line SPACE offset2 in
  let offset2 := find line SPACE (wrap64 (offset + 1)) in
  statusText <- substr line offset (wrap64 (offset2 - offset)) ;;
  httpStatusCode <- atoi statusText ;;
  let offset := wrap64 (offset2 + 1) in
  sizeText <- substr line offset npos ;;
  responseSize <- atoi sizeText ;;
  Ret (mkConnection clientSource clientId userId timestamp
         httpRequestMethod requestUri httpVersion httpStatusCode responseSize).

(** ** [std::map<string, V>] *)

(** [std::less<std::string>]: lexicographic order on the characters taken
    as unsigned bytes. *)
Definition str_compare (a b : cstring) : comparison :=
  String_as_OT.compare (string_of_list_ascii a) (string_of_list_ascii b).

Definition str_lt (a b : cstring) : Prop := str_compare a b = Lt.

(** A map is the list of its entries in ascending key order. *)
Definition smap (V : Type) : Type := list (cstring * V).

Definition keys {V : Type} (m : smap V) : list cstring := map fst m.

(** [m.find(k)], giving the mapped value. *)
Fixpoint map_find {V : Type} (k : cstring) (m : smap V) : option V :=
  match m with
  | [] => None
  | (k', v) :: t =>
      match str_compare k k' with
      | Eq => Some v
      | _ => map_find k t
      end
  end.

(** [m.emplace(k, v)]: a new entry at its place in the order; an entry
    that is already there is kept. *)
Fixpoint map_emplace {V : Type} (k : cstring) (v : V) (m : smap V) : smap V :=
  match m with
  | [] => [(k, v)]
  | (k', v') :: t =>
      match str_compare k k' with
      | Lt => (k, v) :: m
      | Eq => m
      | Gt => (k', v') :: map_emplace k v t
      end
  end.

(** Assignment through a reference or an iterator to the value of an
    existing entry. *)
Fixpoint map_set {V : Type} (k : cstring) (v : V) (m : smap V) : smap V :=
  match m with
  | [] => []
  | (k', v') :: t =>
      match str_compare k k' with
      | Eq => (k', v) :: t
      | _ => (k', v') :: map_set k v t
      end
  end.

(** ** [getConnectionAttempts] *)

Definition group : Type := list Connection.

Section Aggregation.

(** The loop is written over the parser it calls, so that what the loop
    does with a line can be told apart from what the parser does. *)
Variable parse : cstring -> outcome Connection.

(** One turn of the loop over the log lines. An exception thrown by the
    parser is caught and the line skipped. *)
Definition addLine (connections : smap group) (line : cstring)
    : outcome (smap group) :=
  match line with
  | [] => Ret connections
  | _ =>
      match parse line with
      | Ret connection =>
          match map_find (clientSource connection) connections with
          | None =>
              Ret (map_emplace (clientSource connection) [connection] connections)
          | Some v =>
              Ret (map_set (clientSource connection) (v ++ [connection]) connections)
          end
      | Throw => Ret connections
      | Undefined => Undefined
      | NoFuel => NoFuel
      end
  end.

Fixpoint addLines (connections : smap group) (logLines : list cstring)
    : outcome (smap group) :=
  match logLines with
  | [] => Ret connections
  | line :: rest =>
      connections' <- addLine connections line ;;
      addLines connections' rest
  end.

End Aggregation.

Definition getConnectionAttempts (logLines : list cstring) : outcome (smap group) :=
  addLines parseConnectionFromLine [] logLines.

(** ** The grouping loop of [main] *)

(** [v.insert(v.end() - 1, first, last)]: the new elements go in front of
    the last element of [v]; on an empty [v] the iterator [end() - 1] is
    invalid. *)
Definition insert_before_last {A : Type} (v ins : list A) : outcome (list A) :=
  match v with
  | [] => Undefined
  | a :: t => Ret (removelast v ++ ins ++ [last v a])
  end.

(** One turn of the inner loop of [main]. *)
Definition mergeEntry (totalConnections : smap group) (connection : cstring * group)
    : outcome (smap group) :=
  match map_find (fst connection) totalConnections with
  | None => Ret (map_emplace (fst connection) (snd connection) totalConnections)
  | Some v =>
      v' <- insert_before_last v (snd connection) ;;
      Ret (map_set (fst connection) v' totalConnections)
  end.

(** The inner loop of [main]: the groups of one source are merged into
    the groups collected so far. *)
Fixpoint merge (totalConnections connections : smap group) : outcome (smap group) :=
  match connections with
  | [] => Ret totalConnections
  | connection :: rest =>
      total' <- mergeEntry totalConnections connection ;;
      merge total' rest
  end.

(** The outer loop of [main] over the lines of every source. *)
Fixpoint collect (totalConnections : smap group) (lines : smap (list cstring))
    : outcome (smap group) :=
  match lines with
  | [] => Ret totalConnections
  | (_, logLines) :: rest =>
      connections <- getConnectionAttempts logLines ;;
      total' <- merge totalConnections connections ;;
      collect total' rest
  end.

(** ** Report *)

Definition NL : cstring := [ascii_of_nat 10].

(** [getSpacerStrings(width, centreString)]; [width] is a [uint32_t] and
    the lengths are [size_t], so the subtractions are done on 64 bits. *)
Definition getSpacerStrings (width : Z) (centreString : cstring)
    : outcome (cstring * cstring) :=
  str1 <- fill (wrap64 (width / 2 - size centreString / 2)) " "%char ;;
  str2 <- fill (wrap64 (width - size str1 - size centreString)) " "%char ;;
  Ret (str1, str2).

(** [getLongestClientSource(totalConnections, maxWidth)]. The loop leaves
    either by [return largestString] or by [break]. *)
Fixpoint getLongestClientSource_loop (entries : smap group) (maxWidth : Z)
    (largestString : cstring) : cstring * bool :=
  match entries with
  | [] => (largestString, false)
  | (first, _) :: rest =>
      if (size first <=? wrap64 maxWidth) && (size largestString <? size first) then
        getLongestClientSource_loop rest maxWidth first
      else if size first =? wrap64 maxWidth then (largestString, true)
      else if wrap64 maxWidth <? size first then (largestString, false)
      else getLongestClientSource_loop rest maxWidth largestString
  end.

Definition getLongestClientSource (totalConnections : smap group) (maxWidth : Z)
    : cstring :=
  let '(largestString, returned) :=
    getLongestClientSource_loop totalConnections maxWidth [] in
  if returned then largestString
  else match largestString with
       | [] =>
           (* [string(' ', maxWidth)]: the count is the code of the space
              and the character is [maxWidth] cut to a [char] *)
           repeat (ascii_of_N (Z.to_N (maxWidth mod 256))) 32
       | _ => largestString
       end.

(** The nine counters of [printUniqueIpStats], each a [uint32_t]. *)
Record totals : Type := mkTotals {
  total200 : Z; total204 : Z; total301 : Z;
  total400 : Z; total401 : Z; total403 : Z;
  total404 : Z; total500 : Z; total503 : Z
}.

Definition no_totals : totals := mkTotals 0 0 0 0 0 0 0 0 0.

Definition OK : Z := 200.
Definition NO_CONTENT : Z := 204.
Definition MOVED_PERMANENTLY : Z := 301.
Definition BAD_REQUEST : Z := 400.
Definition UNAUTHORIZED : Z := 401.
Definition FORBIDDEN : Z := 403.
Definition NOT_FOUND : Z := 404.
Definition INTERNAL_SERVER_ERROR : Z := 500.
Definition SERVICE_UNAVAILABLE : Z := 503.

Definition incr (n : Z) : Z := wrap32 (n + 1).

(** The [switch] on the status code of one connection. *)
Definition countConnection (t : totals) (connection : Connection) : totals :=
  let code := httpStatusCode connection in
  let '(mkTotals t200 t204 t301 t400 t401 t403 t404 t500 t503) := t in
  if code =? OK then mkTotals (incr t200) t204 t301 t400 t401 t403 t404 t500 t503
  else if code =? NO_CONTENT then mkTotals t200 (incr t204) t301 t400 t401 t403 t404 t500 t503
  else if code =? MOVED_PERMANENTLY then mkTotals t200 t204 (incr t301) t400 t401 t403 t404 t500 t503
  else if code =? BAD_REQUEST then mkTotals t200 t204 t301 (incr t400) t401 t403 t404 t500 t503
  else if code =? UNAUTHORIZED then mkTotals t200 t204 t301 t400 (incr t401) t403 t404 t500 t503
  else if code =? FORBIDDEN then mkTotals t200 t204 t301 t400 t401 (incr t403) t404 t500 t503
  else if code =? NOT_FOUND then mkTotals t200 t204 t301 t400 t401 t403 (incr t404) t500 t503
  else if code =? INTERNAL_SERVER_ERROR then mkTotals t200 t204 t301 t400 t401 t403 t404 (incr t500) t503
  else if code =? SERVICE_UNAVAILABLE then mkTotals t200 t204 t301 t400 t401 t403 t404 t500 (incr t503)
  else t.

(** The loop over the connections of one client. *)
Definition tally (connections : group) : totals :=
  fold_left countConnection connections no_totals.

Definition totals_list (t : totals) : list Z :=
  [total200 t; total204 t; total301 t; total400 t; total401 t;
   total403 t; total404 t; total500 t; total503 t].

Definition HEADER_CLIENT_SRC : cstring := str "Source".

(** The spacers that centre the header label of the source column. *)
Definition sourceSpacers (first : cstring) : outcome (cstring * cstring) :=
  if size HEADER_CLIENT_SRC <? size first
  then getSpacerStrings (wrap32 (size first)) HEADER_CLIENT_SRC
  else getSpacerStrings (wrap32 (size HEADER_CLIENT_SRC + 2)) HEADER_CLIENT_SRC.

(** The width of the source column: the length of the rule under the
    header label. *)
Definition sourceColumnWidth (sepStrings : cstring * cstring) : Z :=
  wrap64 (size (fst sepStrings) + size HEADER_CLIENT_SRC + size (snd sepStrings)).

(** One count column of the data row, without its leading bar. *)
Definition countCell (total : Z) : outcome cstring :=
  let tmp := to_string total in
  sepStrings <- getSpacerStrings 11 tmp ;;
  Ret (fst sepStrings ++ tmp ++ snd sepStrings).

Fixpoint countCells (l : list Z) : outcome (list cstring) :=
  match l with
  | [] => Ret []
  | total :: rest =>
      cell <- countCell total ;;
      cells <- countCells rest ;;
      Ret (cell :: cells)
  end.

Definition BAR : cstring := str "|".

(** The data row: the source as it is, then the nine count columns. *)
Definition dataRow (mapEntry : cstring * group) : outcome cstring :=
  cells <- countCells (totals_list (tally (snd mapEntry))) ;;
  Ret (BAR ++ fst mapEntry ++ List.concat (map (fun cell => BAR ++ cell) cells) ++ BAR).

(** What one turn of the loop of [printUniqueIpStats] writes. *)
Definition renderTable (mapEntry : cstring * group) : outcome cstring :=
  sepStrings <- sourceSpacers (fst mapEntry) ;;
  rule <- fill (sourceColumnWidth sepStrings) "-"%char ;;
  row <- dataRow mapEntry ;;
  Ret (BAR ++ fst sepStrings ++ HEADER_CLIENT_SRC ++ snd sepStrings
       ++ str "| Total 200 | Total 204 | Total 301 | Total 400 | Total 401 | Total 403 | Total 404 | Total 500 | Total 503 |"
       ++ NL
       ++ BAR ++ rule
       ++ str "|-----------|-----------|-----------|-----------|-----------|-----------|-----------|-----------|-----------|"
       ++ NL
       ++ row ++ NL ++ NL ++ str "----------" ++ NL ++ NL).

Fixpoint printUniqueIpStats (ipMap : smap group) : outcome cstring :=
  match ipMap with
  | [] => Ret []
  | mapEntry :: rest =>
      table <- renderTable mapEntry ;;
      tables <- printUniqueIpStats rest ;;
      Ret (table ++ tables)
  end.

(** Conversion of a size to [int] and its decimal text. *)
Definition to_int32 (z : Z) : Z :=
  let w := wrap32 z in if w <? 2 ^ 31 then w else w - 2 ^ 32.

Definition int_to_string (z : Z) : cstring :=
  if z <? 0 then "-"%char :: to_string (- z) else to_string z.

(** [main], from the lines read of every source to the text written. *)
Definition main (lines : smap (list cstring)) : outcome cstring :=
  totalConnections <- collect [] lines ;;
  let totalUniqueIps := to_int32 (Z.of_nat (List.length totalConnections)) in
  report <- printUniqueIpStats totalConnections ;;
  Ret (str "# HTTPD Report" ++ NL
       ++ str "## Total Unique IPs: " ++ int_to_string totalUniqueIps ++ NL ++ NL
       ++ report).

(** ** The other functions of the report generator *)

(** [countHttpResults(connectionList, statusCode)]: [std::count_if] over
    the connections, its result converted to [int32_t]. *)
Definition countHttpResults (connectionList : group) (statusCode : Z) : Z :=
  to_int32
    (Z.of_nat
       (List.length
          (filter (fun conn => httpStatusCode conn =? statusCode) connectionList))).

(** [Connection::toMarkdownRow]: the nine fields between bars, the two
    numbers in decimal, and the end of line. *)
Definition toMarkdownRow (connection : Connection) : cstring :=
  BAR ++ clientSource connection
  ++ BAR ++ clientId connection
  ++ BAR ++ userId connection
  ++ BAR ++ timestamp connection
  ++ BAR ++ httpRequestMethod connection
  ++ BAR ++ requestUri connection
  ++ BAR ++ httpVersion connection
  ++ BAR ++ int_to_string (httpStatusCode connection)
  ++ BAR ++ int_to_string (responseSize connection)
  ++ BAR ++ NL.

(** *** Trimming *)

(** The value of a [char] as an [int]; whether [char] is signed is left
    to the platform. *)
Definition char_value (char_signed : bool) (c : ascii) : Z :=
  let n := Z.of_N (N_of_ascii c) in
  if char_signed && (128 <=? n) then n - 256 else n.

(** The lambda [shouldTrimChar]: with no trim characters given it is
    [isspace(c)], whose behaviour is undefined on a negative argument
    other than [EOF]; otherwise it is [trimChar.find(c) != npos]. *)
Definition shouldTrimChar (char_signed : bool) (trimChar : cstring) (c : ascii)
    : outcome bool :=
  if size trimChar =? 0 then
    if (char_value char_signed c <? 0) && negb (char_value char_signed c =? -1)
    then Undefined
    else Ret (isspace c)
  else Ret (negb (find trimChar c 0 =? npos)).

(** [find_if(first, last, not1(pred))]: the range from the first element
    that [pred] refuses on; [pred] is called on the elements in turn. *)
Fixpoint find_if_not (pred : ascii -> outcome bool) (range : cstring)
    : outcome cstring :=
  match range with
  | [] => Ret []
  | c :: rest =>
      b <- pred c ;;
      if b then find_if_not pred rest else Ret range
  end.

(** [trimStart(nonTrimmed, trimChar)]: what is in front of the element
    found is erased. *)
Definition trimStart (char_signed : bool) (nonTrimmed trimChar : cstring)
    : outcome cstring :=
  find_if_not (shouldTrimChar char_signed trimChar) nonTrimmed.

(** [trimEnd(nonTrimmed, trimChar)]: the search runs over the reverse
    iterators, and what is behind the element found is erased. *)
Definition trimEnd (char_signed : bool) (nonTrimmed trimChar : cstring)
    : outcome cstring :=
  kept <- find_if_not (shouldTrimChar char_signed trimChar) (rev nonTrimmed) ;;
  Ret (rev kept).

(** [trim(nonTrimmed, trimChar)] *)
Definition trim (char_signed : bool) (nonTrimmed trimChar : cstring)
    : outcome cstring :=
  trimmed <- trimEnd char_signed nonTrimmed trimChar ;;
  trimStart char_signed trimmed trimChar.

(** *** Gzip detection *)

Definition NUL : ascii := Ascii.zero.

(** The test of [isGzipped] on the two characters of [buffer], compared
    as [int] with [0x1f] and [0x8b]. *)
Definition gzip_magic (char_signed : bool) (buffer0 buffer1 : ascii) : bool :=
  (char_value char_signed buffer0 =? 31) && (char_value char_signed buffer1 =? 139).

(** [isGzipped(entry)], on the bytes of the file: [buffer] starts as
    zeros and [read] stores the first two bytes of the file, or the ones
    there are. A file that cannot be opened reads as an empty one. *)
Definition isGzipped (char_signed : bool) (content : cstring) : bool :=
  gzip_magic char_signed (nth 0 content NUL) (nth 1 content NUL).

Module Extensions.

(** [httpdreport::isGzipped(entry)]: the variant that looks at the size
    of the file first. *)
Definition isGzipped (char_signed : bool) (content : cstring) : bool :=
  if size content <? 2 then false
  else gzip_magic char_signed (nth 0 content NUL) (nth 1 content NUL).

End Extensions.

(** *** Reading the lines *)

Fixpoint starts_with (needle s : cstring) : bool :=
  match needle, s with
  | [], _ => true
  | a :: needle', b :: s' => Ascii.eqb a b && starts_with needle' s'
  | _ :: _, [] => false
  end.

(** First index at which [needle] starts. *)
Fixpoint index_of_string (needle s : cstring) : option nat :=
  if starts_with needle s then Some O
  else match s with
       | [] => None
       | _ :: t => option_map S (index_of_string needle t)
       end.

(** [s.find(needle, pos)] for a string [needle]. *)
Definition find_string (s needle : cstring) (pos : Z) : Z :=
  if size s <? pos then npos
  else match index_of_string needle (skipn (Z.to_nat pos) s) with
       | Some i => pos + Z.of_nat i
       | None => npos
       end.

Definition HTTP_MARKER : cstring := str "HTTP/1.1".

(** The lambda of [readLogFiles] that reads a stream line by line: a
    line is pushed to [output] when it holds the marker. The stream is
    the list of its lines. *)
Definition readLines (stream : list cstring) (output : list cstring)
    : list cstring :=
  fold_left
    (fun output line =>
       if negb (find_string line HTTP_MARKER 0 =? npos)
       then output ++ [line] else output)
    stream output.

(** * Vocabulary of the properties *)

(** ** Counters *)

(** The range of a [uint32_t]. *)
Definition in_uint32 (z : Z) : Prop := 0 <= z < 2 ^ 32.

(** The nine counters are in the range of a [uint32_t]. *)
Definition totals_in_range (t : totals) : Prop :=
  Forall in_uint32 (totals_list t).

(** The status codes that have a counter. *)
Definition tracked : list Z :=
  [OK; NO_CONTENT; MOVED_PERMANENTLY; BAD_REQUEST; UNAUTHORIZED;
   FORBIDDEN; NOT_FOUND; INTERNAL_SERVER_ERROR; SERVICE_UNAVAILABLE].

(** The counter of a status code, for the codes that have one. *)
Definition counter (t : totals) (code : Z) : option Z :=
  if code =? OK then Some (total200 t)
  else if code =? NO_CONTENT then Some (total204 t)
  else if code =? MOVED_PERMANENTLY then Some (total301 t)
  else if code =? BAD_REQUEST then Some (total400 t)
  else if code =? UNAUTHORIZED then Some (total401 t)
  else if code =? FORBIDDEN then Some (total403 t)
  else if code =? NOT_FOUND then Some (total404 t)
  else if code =? INTERNAL_SERVER_ERROR then Some (total500 t)
  else if code =? SERVICE_UNAVAILABLE then Some (total503 t)
  else None.

(** How many connections of a group have a given status code. *)
Definition count_status (code : Z) (l : group) : Z :=
  Z.of_nat (List.length (filter (fun c => httpStatusCode c =? code) l)).

(** The text of a count column centred in eleven characters. *)
Definition centred11 (cell : cstring) (total : Z) : Prop :=
  let text := to_string total in
  let padLeft := (11 - size text) / 2 in
  let padRight := 11 - padLeft - size text in
  cell = repeat " "%char (Z.to_nat padLeft) ++ text
           ++ repeat " "%char (Z.to_nat padRight) /\
  0 <= padLeft /\ 0 <= padRight /\ size cell = 11.

(** ** Group maps *)

(** A line that is not empty and parses to a connection of [source]. *)
Definition parses_from (parse : cstring -> outcome Connection) (source : cstring)
    (line : cstring) (connection : Connection) : Prop :=
  line <> [] /\ parse line = Ret connection /\ clientSource connection = source.

(** The invariant of the group maps: keys in ascending order and no group
    empty. *)
Definition wf_groups (m : smap group) : Prop :=
  StronglySorted str_lt (keys m) /\ Forall (fun e => snd e <> []) m.

(** What [mergeEntry] leaves for a client that has connections on both
    sides: the connections of the second operand in front of the last
    connection of the first. *)
Definition spliced (v w : group) : group :=
  match v with
  | [] => w
  | a :: _ => removelast v ++ w ++ [last v a]
  end.

(** The group of a client in the merged map, from its groups in the two
    operands. *)
Definition combined (x y : option group) : option group :=
  match x, y with
  | Some v, Some w => Some (spliced v w)
  | Some v, None => Some v
  | None, _ => y
  end.

(** The connections of a group that may be missing. *)
Definition flat (x : option group) : group :=
  match x with Some v => v | None => [] end.

Definition is_some {A : Type} (x : option A) : bool :=
  match x with Some _ => true | None => false end.

(** The per-client counters of a map: what [printUniqueIpStats] counts
    for the client, if the client has a group. *)
Definition counters (m : smap group) (k : cstring) : option totals :=
  option_map tally (map_find k m).

(** ** The layout of a line *)

(** A line that follows the layout up to the quote that opens the
    request, with [tail] behind that quote. *)
Definition layout_head (src cid uid ts tail : cstring) : cstring :=
  src ++ SPACE :: cid ++ SPACE :: uid ++ SPACE :: "["%char :: ts
      ++ "]"%char :: SPACE :: QUOTE :: tail.

(** A line that follows the whole layout
    [<source> <clientId> <userId> [<timestamp>] "<request>" <status> <size>]. *)
Definition layout_line (src cid uid ts req status sz : cstring) : cstring :=
  layout_head src cid uid ts (req ++ QUOTE :: SPACE :: status ++ SPACE :: sz).

(** The second half of [parseConnectionFromLine], from the search for
    the closing quote on; [offset] is the index behind the opening quote
    ([parse_split] below). *)
Definition parseFromQuote (line clientSource clientId userId timestamp : cstring)
    (offset : Z) : outcome Connection :=
  let offset2 := find line QUOTE (wrap64 (offset + 1)) in
  request <- substr line offset (wrap64 (offset2 - offset)) ;;
  tokens <- splitString request WHITESPACE [] ;;
  httpRequestMethod <- at_index tokens 0 ;;
  requestUri <- at_index tokens 1 ;;
  httpVersion <- at_index tokens 2 ;;
  let offset := find line SPACE offset2 in
  let offset2 := find line SPACE (wrap64 (offset + 1)) in
  statusText <- substr line offset (wrap64 (offset2 - offset)) ;;
  httpStatusCode <- atoi statusText ;;
  let offset := wrap64 (offset2 + 1) in
  sizeText <- substr line offset npos ;;
  responseSize <- atoi sizeText ;;
  Ret (mkConnection clientSource clientId userId timestamp
         httpRequestMethod requestUri httpVersion httpStatusCode responseSize).

(** ** Sample data *)

(** A log line written in three parts: what is in front of the request,
    the request, and what is behind it; the two quotes are put in. *)
Definition quoted (head request trailer : string) : cstring :=
  str head ++ QUOTE :: str request ++ QUOTE :: str trailer.

(** A connection with the given source, status code and response size. *)
Definition conn (source : string) (status size : Z) : Connection :=
  mkConnection (str source) (str "-") (str "-") (str "t")
    (str "GET") (str "/") (str "HTTP/1.1") status size.

(** Four lines of one client, and the connections they parse to. *)
Definition one_client_lines : list cstring :=
  [quoted "10.0.0.7 - - [t] " "GET / HTTP/1.1" " 200 10";
   quoted "10.0.0.7 - - [t] " "GET /a HTTP/1.1" " 404 0";
   quoted "10.0.0.7 - - [t] " "GET /b HTTP/1.1" " 302 5";
   quoted "10.0.0.7 - - [t] " "GET /c HTTP/1.1" " 200 7"].

Definition one_client_group : group :=
  [mkConnection (str "10.0.0.7") (str "-") (str "-") (str "t")
     (str "GET") (str "/") (str "HTTP/1.1") 200 10;
   mkConnection (str "10.0.0.7") (str "-") (str "-") (str "t")
     (str "GET") (str "/a") (str "HTTP/1.1") 404 0;
   mkConnection (str "10.0.0.7") (str "-") (str "-") (str "t")
     (str "GET") (str "/b") (str "HTTP/1.1") 302 5;
   mkConnection (str "10.0.0.7") (str "-") (str "-") (str "t")
     (str "GET") (str "/c") (str "HTTP/1.1") 200 7].

(** The lines of two sources that share a client. *)
Definition lines_a : list cstring :=
  [quoted "10.0.0.1 - - [t] " "GET / HTTP/1.1" " 200 1";
   quoted "10.0.0.1 - - [t] " "GET / HTTP/1.1" " 404 2";
   quoted "10.0.0.2 - - [t] " "GET / HTTP/1.1" " 500 3"].

Definition lines_b : list cstring :=
  [quoted "10.0.0.1 - - [t] " "GET / HTTP/1.1" " 200 4"].

(** Three group maps; the first two are the groups of [lines_a] and of
    [lines_b]. *)
Definition groups_a : smap group :=
  [(str "10.0.0.1", [conn "10.0.0.1" 200 1; conn "10.0.0.1" 404 2]);
   (str "10.0.0.2", [conn "10.0.0.2" 500 3])].

Definition groups_b : smap group :=
  [(str "10.0.0.1", [conn "10.0.0.1" 200 4])].

Definition groups_c : smap group :=
  [(str "10.0.0.2", [conn "10.0.0.2" 503 5]);
   (str "10.0.0.3", [conn "10.0.0.3" 301 6])].

(** One source with the lines of two clients, the later in key order
    first, and the groups they are collected in. *)
Definition two_client_lines : smap (list cstring) :=
  [(str "access.log",
    [quoted "beta.example - - [t] " "GET / HTTP/1.1" " 200 1";
     quoted "alpha.example - - [t] " "GET / HTTP/1.1" " 404 2"])].

Definition two_client_groups : smap group :=
  [(str "alpha.example",
    [mkConnection (str "alpha.example") (str "-") (str "-") (str "t")
       (str "GET") (str "/") (str "HTTP/1.1") 404 2]);
   (str "beta.example",
    [mkConnection (str "beta.example") (str "-") (str "-") (str "t")
       (str "GET") (str "/") (str "HTTP/1.1") 200 1])].

(** A line whose time stamp is not closed. *)
Definition unclosed_bracket_line : cstring :=
  quoted "1.2.3.4 - - [10/Oct/2023 " "GET / HTTP/1.1" " 200 5".

(** A line of the common log format and the connection it stands for. *)
Definition example_line : cstring :=
  quoted "127.0.0.1 - - [10/Oct/2023:13:55:36 -0700] " "GET /index.html HTTP/1.1" " 200 2326".

Definition example_connection : Connection :=
  mkConnection (str "127.0.0.1") (str "-") (str "-")
    (str "10/Oct/2023:13:55:36 -0700")
    (str "GET") (str "/index.html") (str "HTTP/1.1") 200 2326.

(** ** Tokens *)

(** The first field of [s] and the fields behind it, a field ending at
    each delimiter. *)
Fixpoint fields (delimiters s : cstring) : cstring * list cstring :=
  match s with
  | [] => ([], [])
  | c :: t =>
      let '(f, fs) := fields delimiters t in
      if mem_ascii c delimiters then ([], f :: fs) else (c :: f, fs)
  end.

Definition split_fields (delimiters s : cstring) : list cstring :=
  fst (fields delimiters s) :: snd (fields delimiters s).

Fixpoint drop_delimiters (delimiters s : cstring) : cstring :=
  match s with
  | c :: t => if mem_ascii c delimiters then drop_delimiters delimiters t else s
  | [] => []
  end.

(** The tokens of [s]: the fields of what is behind the leading
    delimiters, none when nothing is. *)
Definition tokens_of (delimiters s : cstring) : list cstring :=
  match drop_delimiters delimiters s with
  | [] => []
  | s' => split_fields delimiters s'
  end.

(** The tokens put together again with [d] between them. *)
Fixpoint join (d : ascii) (l : list cstring) : cstring :=
  match l with
  | [] => []
  | t :: ts =>
      match ts with
      | [] => t
      | _ => t ++ d :: join d ts
      end
  end.

(** No character of [s] is in [set]. *)
Definition free_of (set s : cstring) : Prop :=
  forall x, In x s -> mem_ascii x set = false.

(** A request line of three tokens. *)
Definition request_text (method uri version : cstring) : cstring :=
  method ++ SPACE :: uri ++ SPACE :: version.

(** The connection has one of the status codes that are counted. *)
Definition is_tracked (connection : Connection) : bool :=
  existsb (Z.eqb (httpStatusCode connection)) tracked.

(** The sum of the nine counters. *)
Definition totals_sum (t : totals) : Z :=
  total200 t + total204 t + total301 t + total400 t + total401 t
  + total403 t + total404 t + total500 t + total503 t.

(** ** Lines and the connections they give *)

(** The line is passed over, is refused by the parser with an exception,
    or parses to a connection. *)
Definition skipped_or_parsed (parse : cstring -> outcome Connection)
    (line : cstring) : Prop :=
  line = [] \/ parse line = Throw \/ exists connection, parse line = Ret connection.

(** The connections that the lines parse to, in the order of the lines. *)
Definition parsed_of (parse : cstring -> outcome Connection)
    (logLines : list cstring) : group :=
  flat_map
    (fun line =>
       match line with
       | [] => []
       | _ => match parse line with Ret connection => [connection] | _ => [] end
       end)
    logLines.

(** The connection comes from the client [k]. *)
Definition from_source (k : cstring) (connection : Connection) : bool :=
  match str_compare k (clientSource connection) with Eq => true | _ => false end.

(** The connections of all the sources, source after source. *)
Definition all_parsed (lines : smap (list cstring)) : group :=
  flat_map (fun entry => parsed_of parseConnectionFromLine (snd entry)) lines.

(** ** Lines and rows *)

(** [needle] occurs in [s]. *)
Definition contains (needle s : cstring) : Prop :=
  exists pre post, s = pre ++ needle ++ post.

(** The cells of the row of a connection, and the end of line behind
    the last bar. *)
Definition cells (c : Connection) : list cstring :=
  [clientSource c; clientId c; userId c; timestamp c; httpRequestMethod c;
   requestUri c; httpVersion c; int_to_string (httpStatusCode c);
   int_to_string (responseSize c); NL].

(** * Properties *)

(** ** Sizes and wrap-around *)

Lemma size_nonneg (s : cstring) : 0 <= size s.
Proof. unfold size. lia. Qed.

Lemma size_app (a b : cstring) : size (a ++ b) = size a + size b.
Proof. unfold size. rewrite length_app. lia. Qed.

Lemma size_cons (c : ascii) (s : cstring) : size (c :: s) = 1 + size s.
Proof. unfold size. cbn [List.length]. lia. Qed.

Lemma size_nil : size [] = 0.
Proof. reflexivity. Qed.

Lemma size_repeat (c : ascii) (n : Z) : 0 <= n -> size (repeat c (Z.to_nat n)) = n.
Proof. intros H. unfold size. rewrite repeat_length. lia. Qed.

Lemma wrap64_small (z : Z) : 0 <= z < 2 ^ 64 -> wrap64 z = z.
Proof. intros H. unfold wrap64. apply Z.mod_small. exact H. Qed.

Lemma wrap32_small (z : Z) : 0 <= z < 2 ^ 32 -> wrap32 z = z.
Proof. intros H. unfold wrap32. apply Z.mod_small. exact H. Qed.

Lemma wrap32_range (z : Z) : 0 <= wrap32 z < 2 ^ 32.
Proof. unfold wrap32. apply Z.mod_pos_bound. lia. Qed.

Lemma fill_ret (n : Z) (c : ascii) :
  0 <= n <= max_size -> fill n c = Ret (repeat c (Z.to_nat n)).
Proof.
  intros H. unfold fill.
  destruct (max_size <? n) eqn:E; [apply Z.ltb_lt in E; lia | reflexivity].
Qed.

(** ** The spacers of a centred cell *)

(** The spacers when the text fits the column: nothing wraps and nothing
    is thrown. *)
Lemma getSpacerStrings_fits (width : Z) (centreString : cstring) :
  0 <= width < 2 ^ 32 ->
  size centreString <= width ->
  getSpacerStrings width centreString =
    Ret (repeat " "%char (Z.to_nat (width / 2 - size centreString / 2)),
         repeat " "%char
           (Z.to_nat (width - (width / 2 - size centreString / 2) - size centreString))).
Proof.
  intros Hw Hs.
  pose proof (size_nonneg centreString) as H0.
  assert (Hl : 0 <= width / 2 - size centreString / 2 <= width).
  { split.
    - apply Z.le_0_sub, Z.div_le_mono; lia.
    - assert (0 <= size centreString / 2) by (apply Z.div_pos; lia).
      assert (width / 2 <= width) by (apply Z.div_le_upper_bound; lia).
      lia. }
  assert (Hr : 0 <= width - (width / 2 - size centreString / 2) - size centreString).
  { pose proof (Z.div_mod width 2) as Hd. pose proof (Z.mod_pos_bound width 2) as Hm.
    pose proof (Z.div_mod (size centreString) 2) as Hd'.
    pose proof (Z.mod_pos_bound (size centreString) 2) as Hm'.
    lia. }
  unfold getSpacerStrings, max_size in *.
  rewrite wrap64_small by lia.
  rewrite fill_ret by (unfold max_size; lia).
  cbn [bind]. rewrite size_repeat by lia.
  rewrite wrap64_small by lia.
  rewrite fill_ret by (unfold max_size; lia).
  reflexivity.
Qed.

(** C10: for a column width [w] and a text no longer than [w], the two
    spacers of [getSpacerStrings] and the text add up to [w] characters,
    so a centred cell is exactly as wide as its column. *)
Theorem spacers_fill_width (width : Z) (centreString : cstring) :
  0 <= width < 2 ^ 32 ->
  size centreString <= width ->
  exists first second,
    getSpacerStrings width centreString = Ret (first, second) /\
    size first + size centreString + size second = width.
Proof.
  intros Hw Hs.
  rewrite (getSpacerStrings_fits width centreString Hw Hs).
  eexists; eexists; split; [reflexivity|].
  pose proof (size_nonneg centreString) as H0.
  pose proof (Z.div_mod width 2) as Hd. pose proof (Z.mod_pos_bound width 2) as Hm.
  pose proof (Z.div_mod (size centreString) 2) as Hd'.
  pose proof (Z.mod_pos_bound (size centreString) 2) as Hm'.
  rewrite !size_repeat by lia. lia.
Qed.

Lemma spacers_fill_width_witness :
  exists first second,
    getSpacerStrings 11 (str "404") = Ret (first, second) /\
    size first + size (str "404") + size second = 11.
Proof.
  apply (spacers_fill_width 11 (str "404")); [lia | vm_compute; discriminate].
Defined.

(** ** Decimal text of a counter *)

Lemma to_string_fuel_length (fuel : nat) :
  forall (n : Z) (acc : cstring) (k : nat),
    (1 <= k <= fuel)%nat ->
    0 <= n < 10 ^ Z.of_nat k ->
    1 + size acc <= size (to_string_fuel fuel n acc) <= Z.of_nat k + size acc.
Proof.
  induction fuel as [|fuel IH]; intros n acc k Hk Hn; [lia|].
  cbn [to_string_fuel].
  destruct (n <? 10) eqn:E.
  - rewrite size_cons. lia.
  - apply Z.ltb_ge in E.
    destruct k as [|[|k]]; [lia | cbn in Hn; lia |].
    assert (Hq : 0 <= n / 10 < 10 ^ Z.of_nat (S k)).
    { split; [apply Z.div_pos; lia|].
      apply Z.div_lt_upper_bound; [lia|].
      replace (Z.of_nat (S (S k))) with (Z.succ (Z.of_nat (S k))) in Hn by lia.
      rewrite Z.pow_succ_r in Hn by lia. lia. }
    specialize (IH (n / 10) (digit_char (n mod 10) :: acc) (S k) ltac:(lia) Hq).
    rewrite size_cons in IH. lia.
Qed.

(** A [uint32_t] prints as one to ten characters. *)
Lemma to_string_size (n : Z) :
  0 <= n < 2 ^ 32 -> 1 <= size (to_string n) <= 10.
Proof.
  intros H. unfold to_string.
  pose proof (to_string_fuel_length 20 n [] 10 ltac:(lia)) as L.
  rewrite size_nil in L. apply L. cbn. lia.
Qed.

(** ** The counters *)

Lemma incr_range (n : Z) : in_uint32 (incr n).
Proof. apply wrap32_range. Qed.

Lemma countConnection_range (t : totals) (c : Connection) :
  totals_in_range t -> totals_in_range (countConnection t c).
Proof.
  destruct t. unfold totals_in_range, countConnection, totals_list. cbn.
  intros H.
  repeat match goal with H : Forall _ (_ :: _) |- _ => inversion H; subst; clear H end.
  repeat match goal with |- context [if ?b then _ else _] => destruct b end;
    repeat apply Forall_cons; try apply Forall_nil; cbn; auto using incr_range.
Qed.

Lemma fold_countConnection_range (l : group) :
  forall t, totals_in_range t -> totals_in_range (fold_left countConnection l t).
Proof.
  induction l as [|c l IH]; intros t Ht; cbn; [exact Ht|].
  apply IH, countConnection_range, Ht.
Qed.

Lemma tally_range (l : group) : totals_in_range (tally l).
Proof.
  apply fold_countConnection_range.
  unfold totals_in_range, totals_list, no_totals. cbn.
  repeat apply Forall_cons; try apply Forall_nil;
    unfold in_uint32; (split; [lia | reflexivity]).
Qed.

(** ** The count columns *)

Lemma countCell_centred (total : Z) :
  in_uint32 total ->
  exists cell, countCell total = Ret cell /\ centred11 cell total.
Proof.
  intros Ht. pose proof (to_string_size total Ht) as Hs.
  unfold countCell, centred11.
  rewrite getSpacerStrings_fits by lia. cbn [bind fst snd].
  set (n := size (to_string total)) in *.
  assert (E1 : 11 / 2 - n / 2 = (11 - n) / 2).
  { pose proof (Z.div_mod n 2) as Hd. pose proof (Z.mod_pos_bound n 2) as Hm.
    pose proof (Z.div_mod (11 - n) 2) as Hd'.
    pose proof (Z.mod_pos_bound (11 - n) 2) as Hm'.
    change (11 / 2) with 5. lia. }
  rewrite E1.
  assert (0 <= (11 - n) / 2 <= 5).
  { split; [apply Z.div_pos; lia|]. apply Z.div_le_upper_bound; lia. }
  assert (0 <= 11 - (11 - n) / 2 - n).
  { pose proof (Z.div_mod (11 - n) 2) as Hd'.
    pose proof (Z.mod_pos_bound (11 - n) 2) as Hm'. lia. }
  eexists; split; [reflexivity|].
  repeat split; try lia.
  rewrite !size_app, !size_repeat by lia. fold n. lia.
Qed.

Lemma countCells_centred (l : list Z) :
  Forall in_uint32 l ->
  exists cells, countCells l = Ret cells /\ Forall2 centred11 cells l.
Proof.
  induction l as [|total l IH]; intros H.
  - exists []. split; [reflexivity | constructor].
  - inversion H as [|? ? Ht Hl]; subst.
    destruct (countCell_centred total Ht) as [cell [Ec Hc]].
    destruct (IH Hl) as [cells [Es Hs]].
    exists (cell :: cells). cbn [countCells]. rewrite Ec, Es. cbn [bind].
    split; [reflexivity | constructor; assumption].
Qed.

(** The data row is written for every group. *)
Lemma dataRow_returns (mapEntry : cstring * group) :
  exists cells,
    dataRow mapEntry =
      Ret (BAR ++ fst mapEntry
           ++ List.concat (map (fun cell => BAR ++ cell) cells) ++ BAR).
Proof.
  destruct (countCells_centred _ (tally_range (snd mapEntry))) as [cells [E _]].
  exists cells. unfold dataRow. rewrite E. reflexivity.
Qed.

(** C7: the data row of a group is the bar, the source, then nine count
    columns each led by a bar; every count column is the decimal text of
    its counter centred in exactly eleven characters, with
    [(11 - len) / 2] spaces on the left and the rest on the right. *)
Theorem count_columns_centred (mapEntry : cstring * group) :
  exists cells,
    dataRow mapEntry =
      Ret (BAR ++ fst mapEntry
           ++ List.concat (map (fun cell => BAR ++ cell) cells) ++ BAR) /\
    List.length cells = 9%nat /\
    Forall2 centred11 cells (totals_list (tally (snd mapEntry))).
Proof.
  destruct (countCells_centred _ (tally_range (snd mapEntry))) as [cells [E H]].
  exists cells. unfold dataRow. rewrite E. cbn [bind].
  split; [reflexivity|]. split; [|exact H].
  apply Forall2_length in H. exact H.
Qed.

(** ** The source column *)

(** The spacers around the header label, for a source shorter than
    [2^32] characters. *)
Lemma sourceSpacers_fits (first : cstring) :
  size first < 2 ^ 32 ->
  sourceSpacers first =
    Ret (if size HEADER_CLIENT_SRC <? size first
         then (repeat " "%char (Z.to_nat (size first / 2 - 3)),
               repeat " "%char (Z.to_nat (size first - (size first / 2 - 3) - 6)))
         else ([" "%char], [" "%char])).
Proof.
  intros Hf. pose proof (size_nonneg first) as H0.
  unfold sourceSpacers. change (size HEADER_CLIENT_SRC) with 6.
  destruct (6 <? size first) eqn:E; [|vm_compute; reflexivity].
  apply Z.ltb_lt in E.
  rewrite wrap32_small by lia.
  rewrite getSpacerStrings_fits by (change (size HEADER_CLIENT_SRC) with 6; lia).
  reflexivity.
Qed.

(** C8, as the code has it: for a source of at most six characters (the
    length of the header label) the source column is the label plus two,
    eight characters wide; for a longer source it is as wide as the
    source, whatever its length. The data row prints the source as it
    is. *)
Theorem source_column_width (first : cstring) (connections : group) :
  size first < 2 ^ 32 ->
  exists sepStrings cells,
    sourceSpacers first = Ret sepStrings /\
    sourceColumnWidth sepStrings =
      (if size HEADER_CLIENT_SRC <? size first
       then size first
       else size HEADER_CLIENT_SRC + 2) /\
    dataRow (first, connections) =
      Ret (BAR ++ first ++ List.concat (map (fun cell => BAR ++ cell) cells) ++ BAR).
Proof.
  intros Hf. pose proof (size_nonneg first) as H0.
  destruct (dataRow_returns (first, connections)) as [cells Hrow].
  rewrite (sourceSpacers_fits first Hf).
  eexists; exists cells. split; [reflexivity|]. split; [|exact Hrow].
  unfold sourceColumnWidth. change (size HEADER_CLIENT_SRC) with 6.
  destruct (6 <? size first) eqn:E; [|reflexivity].
  apply Z.ltb_lt in E. cbn [fst snd].
  pose proof (Z.div_mod (size first) 2) as Hd.
  pose proof (Z.mod_pos_bound (size first) 2) as Hm.
  rewrite !size_repeat by lia.
  rewrite wrap64_small by lia. lia.
Qed.

Lemma source_column_width_witness :
  exists sepStrings cells,
    sourceSpacers (str "192.168.100.200") = Ret sepStrings /\
    sourceColumnWidth sepStrings =
      (if size HEADER_CLIENT_SRC <? size (str "192.168.100.200")
       then size (str "192.168.100.200")
       else size HEADER_CLIENT_SRC + 2) /\
    dataRow (str "192.168.100.200", []) =
      Ret (BAR ++ str "192.168.100.200"
           ++ List.concat (map (fun cell => BAR ++ cell) cells) ++ BAR).
Proof.
  apply (source_column_width (str "192.168.100.200") []). vm_compute. reflexivity.
Defined.

(** A source of 81 characters gets a column of 81 characters, not of the
    80 a cap would give. *)
Lemma source_column_not_capped :
  exists sepStrings,
    sourceSpacers (repeat "a"%char 81) = Ret sepStrings /\
    sourceColumnWidth sepStrings = 81 /\
    sourceColumnWidth sepStrings <>
      Z.min 80 (Z.max (size HEADER_CLIENT_SRC) (size (repeat "a"%char 81))).
Proof.
  eexists. split; [vm_compute; reflexivity|].
  split; [vm_compute; reflexivity | vm_compute; discriminate].
Qed.

(** *** The width cap of [getLongestClientSource] *)

Lemma getLongestClientSource_loop_bound (entries : smap group) (maxWidth : Z) :
  forall largestString,
    size largestString <= wrap64 maxWidth ->
    size (fst (getLongestClientSource_loop entries maxWidth largestString))
      <= wrap64 maxWidth.
Proof.
  induction entries as [|[first connections] rest IH]; intros largestString H;
    cbn [getLongestClientSource_loop fst]; [exact H|].
  destruct ((size first <=? wrap64 maxWidth) && (size largestString <? size first))
    eqn:E.
  - apply andb_true_iff in E. destruct E as [E _]. apply Z.leb_le in E.
    exact (IH first E).
  - destruct (size first =? wrap64 maxWidth); [exact H|].
    destruct (wrap64 maxWidth <? size first); [exact H | exact (IH _ H)].
Qed.

(** The only cap on a width is the one of [getLongestClientSource], a
    function the report never calls: its result is no longer than
    [maxWidth], or is the filler of 32 characters. *)
Lemma getLongestClientSource_bound (totalConnections : smap group) (maxWidth : Z) :
  size (getLongestClientSource totalConnections maxWidth)
    <= Z.max 32 (wrap64 maxWidth).
Proof.
  unfold getLongestClientSource.
  assert (H0 : size [] <= wrap64 maxWidth).
  { unfold wrap64. pose proof (Z.mod_pos_bound maxWidth (2 ^ 64) ltac:(lia)).
    rewrite size_nil. lia. }
  pose proof (getLongestClientSource_loop_bound totalConnections maxWidth [] H0) as H.
  destruct (getLongestClientSource_loop totalConnections maxWidth [])
    as [largestString returned].
  cbn [fst] in H.
  destruct returned; [lia|].
  destruct largestString as [|c largestString]; [|lia].
  unfold size. rewrite repeat_length. lia.
Qed.

Lemma getLongestClientSource_empty :
  getLongestClientSource [] 80 = repeat "P"%char 32.
Proof. reflexivity. Qed.

(** ** Empty lines *)

(** C9: an empty line is passed over before the parser is called:
    whatever the parser would do with it, the groups stay as they are and
    the loop goes on with the next line. *)
Theorem empty_line_skipped (parse : cstring -> outcome Connection)
    (connections : smap group) (rest : list cstring) :
  addLine parse connections [] = Ret connections /\
  addLines parse connections ([] :: rest) = addLines parse connections rest.
Proof. split; reflexivity. Qed.

(** ** The order on keys *)

Lemma string_of_list_ascii_inj (a b : cstring) :
  string_of_list_ascii a = string_of_list_ascii b -> a = b.
Proof.
  intros H.
  rewrite <- (list_ascii_of_string_of_list_ascii a),
          <- (list_ascii_of_string_of_list_ascii b), H.
  reflexivity.
Qed.

Lemma str_compare_eq (a b : cstring) : str_compare a b = Eq <-> a = b.
Proof.
  unfold str_compare. split.
  - intros H.
    destruct (String_as_OT.compare_spec (string_of_list_ascii a) (string_of_list_ascii b))
      as [E|E|E]; try discriminate.
    apply string_of_list_ascii_inj, E.
  - intros ->.
    destruct (String_as_OT.compare_spec (string_of_list_ascii b) (string_of_list_ascii b))
      as [E|E|E]; [reflexivity | |];
      exfalso; exact (StrictOrder_Irreflexive _ E).
Qed.

Lemma str_compare_refl (a : cstring) : str_compare a a = Eq.
Proof. apply str_compare_eq. reflexivity. Qed.

Lemma str_lt_irrefl (a : cstring) : ~ str_lt a a.
Proof. unfold str_lt. rewrite str_compare_refl. discriminate. Qed.

Lemma str_lt_trans (a b c : cstring) : str_lt a b -> str_lt b c -> str_lt a c.
Proof.
  unfold str_lt, str_compare. intros H1 H2.
  exact (StrictOrder_Transitive _ _ _ H1 H2).
Qed.

Lemma str_compare_gt (a b : cstring) : str_compare a b = Gt -> str_lt b a.
Proof.
  unfold str_lt, str_compare. intros H.
  destruct (String_as_OT.compare_spec (string_of_list_ascii a) (string_of_list_ascii b))
    as [E|E|E]; try discriminate.
  exact E.
Qed.

Lemma str_compare_neq (a b : cstring) : a <> b -> str_compare a b <> Eq.
Proof. intros H E. apply H, str_compare_eq, E. Qed.

(** ** Tallies *)

Lemma count_status_app (code : Z) (l1 l2 : group) :
  count_status code (l1 ++ l2) = count_status code l1 + count_status code l2.
Proof. unfold count_status. rewrite filter_app, length_app. lia. Qed.

Lemma count_status_cons (code : Z) (c : Connection) (l : group) :
  count_status code (c :: l) =
    (if httpStatusCode c =? code then 1 else 0) + count_status code l.
Proof.
  unfold count_status. cbn [filter].
  destruct (httpStatusCode c =? code); cbn [List.length]; lia.
Qed.

Lemma count_status_range (code : Z) (l : group) :
  0 <= count_status code l <= Z.of_nat (List.length l).
Proof.
  unfold count_status. pose proof (filter_length_le (fun c => httpStatusCode c =? code) l).
  lia.
Qed.

Ltac split_codes :=
  repeat match goal with
         | |- context [?a =? ?b] => destruct (Z.eqb_spec a b)
         | H : context [?a =? ?b] |- _ => destruct (Z.eqb_spec a b)
         end.

Lemma counter_tracked (t : totals) (code : Z) :
  In code tracked <-> counter t code <> None.
Proof.
  unfold counter, tracked. cbn [In].
  split_codes; split; intros H; try discriminate; try congruence;
    try (intuition congruence); subst; auto 12.
Qed.

Lemma counter_countConnection (t : totals) (c : Connection) (code v : Z) :
  counter t code = Some v ->
  counter (countConnection t c) code =
    Some (if httpStatusCode c =? code then incr v else v).
Proof.
  destruct t. unfold counter, countConnection,
    OK, NO_CONTENT, MOVED_PERMANENTLY, BAD_REQUEST, UNAUTHORIZED, FORBIDDEN,
    NOT_FOUND, INTERNAL_SERVER_ERROR, SERVICE_UNAVAILABLE.
  cbn [total200 total204 total301 total400 total401 total403 total404 total500 total503].
  intros H. split_codes; cbn; try congruence; try lia.
Qed.

Lemma countConnection_untracked (t : totals) (c : Connection) :
  ~ In (httpStatusCode c) tracked -> countConnection t c = t.
Proof.
  destruct t. unfold countConnection, tracked. cbn [In]. intros H.
  split_codes; try reflexivity; exfalso; apply H; symmetry in e; tauto.
Qed.

Lemma wrap32_incr (v n : Z) : wrap32 (incr v + n) = wrap32 (v + (1 + n)).
Proof.
  unfold incr, wrap32. rewrite Zplus_mod_idemp_l. f_equal. lia.
Qed.

Lemma counter_fold (l : group) :
  forall (t : totals) (code v : Z),
    in_uint32 v ->
    counter t code = Some v ->
    counter (fold_left countConnection l t) code =
      Some (wrap32 (v + count_status code l)).
Proof.
  induction l as [|c l IH]; intros t code v Hv H; cbn [fold_left].
  - unfold count_status. cbn. rewrite Z.add_0_r, wrap32_small by exact Hv. exact H.
  - rewrite (IH _ code _ (if httpStatusCode c =? code as b
                          return in_uint32 (if b then incr v else v)
                          then incr_range v else Hv)
               (counter_countConnection t c code v H)).
    rewrite count_status_cons.
    destruct (httpStatusCode c =? code).
    + rewrite wrap32_incr. reflexivity.
    + reflexivity.
Qed.

(** The counter of a tracked code is the number of connections with that
    code, on 32 bits. *)
Lemma counter_tally (l : group) (code : Z) :
  In code tracked ->
  counter (tally l) code = Some (wrap32 (count_status code l)).
Proof.
  intros H. apply (counter_tracked no_totals) in H.
  destruct (counter no_totals code) as [v|] eqn:E; [|congruence].
  assert (v = 0).
  { revert E. unfold counter, no_totals. cbn. split_codes; congruence. }
  subst v. unfold tally.
  rewrite (counter_fold l no_totals code 0); [reflexivity | | exact E].
  unfold in_uint32. split; [lia | reflexivity].
Qed.

(** ** Lines of one client *)

Section OneClient.

Variable parse : cstring -> outcome Connection.
Variable source : cstring.

Lemma addLine_first (line : cstring) (connection : Connection) :
  parses_from parse source line connection ->
  addLine parse [] line = Ret [(source, [connection])].
Proof.
  intros [Hne [Hp Hs]]. unfold addLine.
  destruct line as [|ch line]; [congruence|].
  rewrite Hp. cbn. rewrite Hs. reflexivity.
Qed.

Lemma addLine_next (line : cstring) (connection : Connection) (seen : group) :
  parses_from parse source line connection ->
  addLine parse [(source, seen)] line = Ret [(source, seen ++ [connection])].
Proof.
  intros [Hne [Hp Hs]]. unfold addLine.
  destruct line as [|ch line]; [congruence|].
  rewrite Hp, Hs. cbn. rewrite str_compare_refl. reflexivity.
Qed.

Lemma addLines_next (logLines : list cstring) (connections : group) :
  Forall2 (parses_from parse source) logLines connections ->
  forall seen,
    addLines parse [(source, seen)] logLines = Ret [(source, seen ++ connections)].
Proof.
  induction 1 as [|line connection logLines connections H _ IH]; intros seen.
  - rewrite app_nil_r. reflexivity.
  - cbn [addLines]. rewrite (addLine_next _ _ _ H). cbn [bind].
    rewrite IH, <- app_assoc. reflexivity.
Qed.

Lemma addLines_one_group (logLines : list cstring) (connections : group) :
  logLines <> [] ->
  Forall2 (parses_from parse source) logLines connections ->
  addLines parse [] logLines = Ret [(source, connections)].
Proof.
  intros Hne H. destruct H as [|line connection logLines connections H Hrest];
    [congruence|].
  cbn [addLines]. rewrite (addLine_first _ _ H). cbn [bind].
  rewrite (addLines_next _ _ Hrest). reflexivity.
Qed.

End OneClient.

(** C6: the lines of [N] connections that all come from one client
    ([N] at least one, and below the range of the 32-bit counters) are
    gathered in a single group holding the [N] connections in line order;
    the counter of each tracked status code is the number of those
    connections with that code, and a connection with another code is in
    the group but moves no counter. *)
Theorem same_source_one_group (logLines : list cstring) (connections : group)
    (source : cstring) :
  logLines <> [] ->
  Forall2 (parses_from parseConnectionFromLine source) logLines connections ->
  Z.of_nat (List.length connections) < 2 ^ 32 ->
  getConnectionAttempts logLines = Ret [(source, connections)] /\
  List.length connections = List.length logLines /\
  (forall code, In code tracked ->
     counter (tally connections) code = Some (count_status code connections)) /\
  (forall code, ~ In code tracked -> counter (tally connections) code = None) /\
  (forall connection t,
     In connection connections ->
     ~ In (httpStatusCode connection) tracked ->
     countConnection t connection = t).
Proof.
  intros Hne H Hn.
  split; [exact (addLines_one_group _ _ _ _ Hne H)|].
  split; [symmetry; exact (Forall2_length H)|].
  split; [|split].
  - intros code Hc. rewrite (counter_tally _ _ Hc). f_equal.
    apply wrap32_small. pose proof (count_status_range code connections). lia.
  - intros code Hc.
    destruct (counter (tally connections) code) eqn:E; [|reflexivity].
    exfalso. apply Hc, (counter_tracked (tally connections)). congruence.
  - intros connection t _ Hc. apply countConnection_untracked, Hc.
Qed.

Lemma same_source_one_group_witness :
  getConnectionAttempts one_client_lines = Ret [(str "10.0.0.7", one_client_group)] /\
  List.length one_client_group = List.length one_client_lines /\
  (forall code, In code tracked ->
     counter (tally one_client_group) code =
       Some (count_status code one_client_group)) /\
  (forall code, ~ In code tracked -> counter (tally one_client_group) code = None) /\
  (forall connection t,
     In connection one_client_group ->
     ~ In (httpStatusCode connection) tracked ->
     countConnection t connection = t).
Proof.
  apply (same_source_one_group one_client_lines one_client_group (str "10.0.0.7")).
  - discriminate.
  - unfold one_client_lines, one_client_group.
    repeat apply Forall2_cons; try apply Forall2_nil;
      (split; [discriminate | split; vm_compute; reflexivity]).
  - vm_compute. reflexivity.
Defined.

(** ** Maps *)

Section MapFacts.

Context {V : Type}.
Implicit Types (m : smap V) (k : cstring) (v : V).

Lemma map_find_None m k : map_find k m = None <-> ~ In k (keys m).
Proof.
  induction m as [|[k' v'] m IH]; cbn.
  - tauto.
  - destruct (str_compare k k') eqn:E.
    + apply str_compare_eq in E. subst. split; [discriminate | tauto].
    + rewrite IH. split; [|tauto]. intros H [->|H']; [|tauto].
      rewrite str_compare_refl in E. discriminate.
    + rewrite IH. split; [|tauto]. intros H [->|H']; [|tauto].
      rewrite str_compare_refl in E. discriminate.
Qed.

Lemma map_find_emplace m k v k' :
  map_find k m = None ->
  map_find k' (map_emplace k v m) =
    match str_compare k' k with Eq => Some v | _ => map_find k' m end.
Proof.
  induction m as [|[k1 v1] m IH]; cbn; intros H.
  - destruct (str_compare k' k); reflexivity.
  - destruct (str_compare k k1) eqn:E; [discriminate | reflexivity |].
    cbn. rewrite (IH H).
    destruct (str_compare k' k1) eqn:E1; try reflexivity.
    apply str_compare_eq in E1. subst k'.
    destruct (str_compare k1 k) eqn:E2; try reflexivity.
    apply str_compare_eq in E2. subst k1.
    rewrite str_compare_refl in E. discriminate.
Qed.

Lemma map_find_set m k v v0 k' :
  map_find k m = Some v0 ->
  map_find k' (map_set k v m) =
    match str_compare k' k with Eq => Some v | _ => map_find k' m end.
Proof.
  induction m as [|[k1 v1] m IH]; cbn; intros H; [discriminate|].
  destruct (str_compare k k1) eqn:E.
  - apply str_compare_eq in E. subst k1. cbn.
    destruct (str_compare k' k); reflexivity.
  - cbn. rewrite (IH H).
    destruct (str_compare k' k1) eqn:E1; try reflexivity.
    apply str_compare_eq in E1. subst k'.
    destruct (str_compare k1 k) eqn:E2; try reflexivity.
    apply str_compare_eq in E2. subst k1.
    rewrite str_compare_refl in E. discriminate.
  - cbn. rewrite (IH H).
    destruct (str_compare k' k1) eqn:E1; try reflexivity.
    apply str_compare_eq in E1. subst k'.
    destruct (str_compare k1 k) eqn:E2; try reflexivity.
    apply str_compare_eq in E2. subst k1.
    rewrite str_compare_refl in E. discriminate.
Qed.

Lemma map_find_In m k v : map_find k m = Some v -> In (k, v) m.
Proof.
  induction m as [|[k1 v1] m IH]; cbn; [discriminate|].
  destruct (str_compare k k1) eqn:E; intros H; auto.
  apply str_compare_eq in E. left. congruence.
Qed.

Lemma keys_map_set m k v : keys (map_set k v m) = keys m.
Proof.
  induction m as [|[k1 v1] m IH]; cbn; [reflexivity|].
  destruct (str_compare k k1); cbn; f_equal; exact IH.
Qed.

Lemma Forall_keys_emplace (P : cstring -> Prop) m k v :
  P k -> Forall P (keys m) -> Forall P (keys (map_emplace k v m)).
Proof.
  intros Hk. induction m as [|[k1 v1] m IH]; cbn; intros H.
  - constructor; [exact Hk | constructor].
  - destruct (str_compare k k1); cbn; [exact H | constructor; [exact Hk | exact H] |].
    inversion H; subst. constructor; auto.
Qed.

Lemma sorted_emplace m k v :
  StronglySorted str_lt (keys m) ->
  StronglySorted str_lt (keys (map_emplace k v m)).
Proof.
  induction m as [|[k1 v1] m IH]; cbn; intros H.
  - constructor; constructor.
  - inversion H as [|? ? Hs Hf]; subst.
    destruct (str_compare k k1) eqn:E; cbn.
    + exact H.
    + constructor; [exact H|]. constructor; [exact E|].
      eapply Forall_impl; [|exact Hf]. intros x Hx. exact (str_lt_trans _ _ _ E Hx).
    + constructor; [exact (IH Hs)|].
      apply Forall_keys_emplace; [exact (str_compare_gt _ _ E) | exact Hf].
Qed.

Lemma Forall_emplace (P : cstring * V -> Prop) m k v :
  P (k, v) -> Forall P m -> Forall P (map_emplace k v m).
Proof.
  intros Hk. induction m as [|[k1 v1] m IH]; cbn; intros H.
  - constructor; [exact Hk | constructor].
  - destruct (str_compare k k1); [exact H | constructor; [exact Hk | exact H] |].
    inversion H; subst. constructor; auto.
Qed.

Lemma Forall_set (P : V -> Prop) m k v :
  P v -> Forall (fun e => P (snd e)) m -> Forall (fun e => P (snd e)) (map_set k v m).
Proof.
  intros Hk. induction m as [|[k1 v1] m IH]; cbn; intros H; [constructor|].
  inversion H; subst.
  destruct (str_compare k k1); constructor; auto.
Qed.

Lemma sorted_keys_NoDup m : StronglySorted str_lt (keys m) -> NoDup (keys m).
Proof.
  induction (keys m) as [|k l IH]; intros H; [constructor|].
  inversion H as [|? ? Hs Hf]; subst. constructor; [|exact (IH Hs)].
  intros Hin. rewrite Forall_forall in Hf. exact (str_lt_irrefl _ (Hf _ Hin)).
Qed.

End MapFacts.

Lemma wf_groups_nil : wf_groups [].
Proof. split; constructor. Qed.

Lemma wf_groups_find (m : smap group) (k : cstring) (v : group) :
  wf_groups m -> map_find k m = Some v -> v <> [].
Proof.
  intros [_ H] E. apply map_find_In in E.
  rewrite Forall_forall in H. exact (H _ E).
Qed.

Lemma addLine_wf (parse : cstring -> outcome Connection)
    (connections connections' : smap group) (line : cstring) :
  wf_groups connections ->
  addLine parse connections line = Ret connections' ->
  wf_groups connections'.
Proof.
  intros [Hs Hn] H. unfold addLine in H.
  destruct line as [|ch line]; [inversion H; subst; split; assumption|].
  destruct (parse (ch :: line)) as [connection| | |]; try discriminate.
  - destruct (map_find (clientSource connection) connections) as [v|] eqn:E;
      inversion H; subst; clear H; split.
    + rewrite keys_map_set. exact Hs.
    + apply (Forall_set (fun g => g <> [])); [|exact Hn].
      destruct v; discriminate.
    + apply sorted_emplace, Hs.
    + apply Forall_emplace; [discriminate | exact Hn].
  - inversion H; subst. split; assumption.
Qed.

Lemma addLines_wf (parse : cstring -> outcome Connection) (logLines : list cstring) :
  forall connections connections',
    wf_groups connections ->
    addLines parse connections logLines = Ret connections' ->
    wf_groups connections'.
Proof.
  induction logLines as [|line rest IH]; intros connections connections' Hw H.
  - inversion H; subst. exact Hw.
  - cbn [addLines] in H.
    destruct (addLine parse connections line) as [c1| | |] eqn:E; try discriminate.
    cbn [bind] in H. exact (IH _ _ (addLine_wf _ _ _ _ Hw E) H).
Qed.

Lemma getConnectionAttempts_wf (logLines : list cstring) (connections : smap group) :
  getConnectionAttempts logLines = Ret connections -> wf_groups connections.
Proof. apply addLines_wf, wf_groups_nil. Qed.

(** ** Merging the groups of two sources *)

Lemma insert_before_last_spliced (v w : group) :
  v <> [] -> insert_before_last v w = Ret (spliced v w).
Proof. destruct v; [congruence | reflexivity]. Qed.

Lemma spliced_nonempty (v w : group) : v <> [] -> spliced v w <> [].
Proof.
  destruct v as [|a v]; [congruence|]. intros _. unfold spliced.
  intros H. apply app_eq_nil in H. destruct H as [_ H].
  apply app_eq_nil in H. destruct H as [_ H]. discriminate.
Qed.

Lemma spliced_perm (v w : group) : Permutation (spliced v w) (v ++ w).
Proof.
  destruct v as [|a v]; [reflexivity|]. unfold spliced.
  rewrite (app_removelast_last a (l := a :: v)) at 3 by discriminate.
  rewrite <- !app_assoc. apply Permutation_app_head, Permutation_app_comm.
Qed.

Lemma mergeEntry_spec (a : smap group) (k0 : cstring) (v0 : group) :
  wf_groups a -> v0 <> [] ->
  exists a',
    mergeEntry a (k0, v0) = Ret a' /\ wf_groups a' /\
    forall k, map_find k a' =
      match str_compare k k0 with
      | Eq => combined (map_find k0 a) (Some v0)
      | _ => map_find k a
      end.
Proof.
  intros Hw Hv. unfold mergeEntry. cbn [fst snd].
  destruct (map_find k0 a) as [v|] eqn:E.
  - rewrite (insert_before_last_spliced v v0 (wf_groups_find _ _ _ Hw E)). cbn [bind].
    eexists. split; [reflexivity|]. split.
    + destruct Hw as [Hs Hn]. split.
      * rewrite keys_map_set. exact Hs.
      * apply (Forall_set (fun g => g <> [])); [|exact Hn].
        apply spliced_nonempty, (wf_groups_find a k0 v (conj Hs Hn) E).
    + intros k. rewrite (map_find_set _ _ _ _ _ E). reflexivity.
  - eexists. split; [reflexivity|]. split.
    + destruct Hw as [Hs Hn]. split.
      * apply sorted_emplace, Hs.
      * apply Forall_emplace; [exact Hv | exact Hn].
    + intros k. rewrite (map_find_emplace _ _ _ _ E). reflexivity.
Qed.

(** The merge of two well-formed maps returns a well-formed map in which
    every client has the combination of its two groups. *)
Lemma merge_spec (b : smap group) :
  forall a, wf_groups a -> wf_groups b ->
    exists m, merge a b = Ret m /\ wf_groups m /\
      forall k, map_find k m = combined (map_find k a) (map_find k b).
Proof.
  induction b as [|[k0 v0] b IH]; intros a Ha Hb.
  - exists a. split; [reflexivity|]. split; [exact Ha|].
    intros k. cbn. destruct (map_find k a); reflexivity.
  - destruct Hb as [Hs Hn].
    pose proof (sorted_keys_NoDup _ Hs) as Hnd.
    inversion Hs as [|? ? Hs' _]; subst. inversion Hn as [|? ? Hv0 Hn']; subst.
    inversion Hnd as [|? ? Hk0 _]; subst. cbn [snd] in Hv0.
    destruct (mergeEntry_spec a k0 v0 Ha Hv0) as [a' [E [Ha' Hf]]].
    destruct (IH a' Ha' (conj Hs' Hn')) as [m [Em [Hm Hfm]]].
    exists m. cbn [merge]. rewrite E. cbn [bind].
    split; [exact Em|]. split; [exact Hm|].
    intros k. rewrite Hfm, Hf. cbn [map_find].
    destruct (str_compare k k0) eqn:Ek; try reflexivity.
    apply str_compare_eq in Ek. subst k.
    apply map_find_None in Hk0. rewrite Hk0.
    destruct (map_find k0 a); reflexivity.
Qed.

(** *** Counters of a merged map *)

(** The counters of the nine tracked codes are the numbers of connections
    with each code, on 32 bits. *)
Lemma tally_fields (l : group) :
  tally l =
    mkTotals (wrap32 (count_status OK l)) (wrap32 (count_status NO_CONTENT l))
      (wrap32 (count_status MOVED_PERMANENTLY l)) (wrap32 (count_status BAD_REQUEST l))
      (wrap32 (count_status UNAUTHORIZED l)) (wrap32 (count_status FORBIDDEN l))
      (wrap32 (count_status NOT_FOUND l))
      (wrap32 (count_status INTERNAL_SERVER_ERROR l))
      (wrap32 (count_status SERVICE_UNAVAILABLE l)).
Proof.
  assert (H : forall code, In code tracked ->
            counter (tally l) code = Some (wrap32 (count_status code l)))
    by (intros; apply counter_tally; assumption).
  pose proof (H OK ltac:(cbn; tauto)) as H1.
  pose proof (H NO_CONTENT ltac:(cbn; tauto)) as H2.
  pose proof (H MOVED_PERMANENTLY ltac:(cbn; tauto)) as H3.
  pose proof (H BAD_REQUEST ltac:(cbn; tauto)) as H4.
  pose proof (H UNAUTHORIZED ltac:(cbn; tauto)) as H5.
  pose proof (H FORBIDDEN ltac:(cbn; tauto)) as H6.
  pose proof (H NOT_FOUND ltac:(cbn; tauto)) as H7.
  pose proof (H INTERNAL_SERVER_ERROR ltac:(cbn; tauto)) as H8.
  pose proof (H SERVICE_UNAVAILABLE ltac:(cbn; tauto)) as H9.
  clear H. destruct (tally l). cbn in *. congruence.
Qed.

Lemma count_status_perm (code : Z) (l l' : group) :
  Permutation l l' -> count_status code l = count_status code l'.
Proof.
  induction 1; rewrite ?count_status_cons; lia.
Qed.

Lemma tally_perm (l l' : group) : Permutation l l' -> tally l = tally l'.
Proof.
  intros H. rewrite (tally_fields l), (tally_fields l').
  rewrite !(count_status_perm _ l l' H). reflexivity.
Qed.

Lemma combined_perm (x y : option group) :
  Permutation (flat (combined x y)) (flat x ++ flat y).
Proof.
  destruct x as [v|], y as [w|]; cbn; try reflexivity.
  - apply spliced_perm.
  - rewrite app_nil_r. reflexivity.
Qed.

Lemma combined_is_some (x y : option group) :
  is_some (combined x y) = is_some x || is_some y.
Proof. destruct x, y; reflexivity. Qed.

Lemma option_tally_eq (x y : option group) :
  is_some x = is_some y -> Permutation (flat x) (flat y) ->
  option_map tally x = option_map tally y.
Proof.
  destruct x, y; cbn; intros H P; try discriminate; [|reflexivity].
  f_equal. apply tally_perm, P.
Qed.

(** C5: on well-formed group maps the merge returns, and the per-client
    counters of the result do not depend on how three maps are
    bracketed nor on the order of two. *)
Theorem merge_counters_assoc_comm (a b c : smap group) :
  wf_groups a -> wf_groups b -> wf_groups c ->
  exists ab ba bc ab_c a_bc,
    merge a b = Ret ab /\ merge b a = Ret ba /\ merge b c = Ret bc /\
    merge ab c = Ret ab_c /\ merge a bc = Ret a_bc /\
    (forall k, counters ab_c k = counters a_bc k) /\
    (forall k, counters ab k = counters ba k).
Proof.
  intros Ha Hb Hc.
  destruct (merge_spec b a Ha Hb) as [ab [Eab [Wab Fab]]].
  destruct (merge_spec a b Hb Ha) as [ba [Eba [Wba Fba]]].
  destruct (merge_spec c b Hb Hc) as [bc [Ebc [Wbc Fbc]]].
  destruct (merge_spec c ab Wab Hc) as [ab_c [Eab_c [_ Fab_c]]].
  destruct (merge_spec bc a Ha Wbc) as [a_bc [Ea_bc [_ Fa_bc]]].
  exists ab, ba, bc, ab_c, a_bc. repeat (split; [assumption|]).
  split; intros k; unfold counters.
  - rewrite Fab_c, Fa_bc, Fab, Fbc. apply option_tally_eq.
    + rewrite !combined_is_some. symmetry. apply orb_assoc.
    + rewrite !combined_perm, app_assoc. reflexivity.
  - rewrite Fab, Fba. apply option_tally_eq.
    + rewrite !combined_is_some. apply orb_comm.
    + rewrite !combined_perm. apply Permutation_app_comm.
Qed.

Ltac prove_wf_groups :=
  split; repeat constructor; try reflexivity; try discriminate.

Lemma merge_counters_assoc_comm_witness :
  exists ab ba bc ab_c a_bc,
    merge groups_a groups_b = Ret ab /\ merge groups_b groups_a = Ret ba /\
    merge groups_b groups_c = Ret bc /\
    merge ab groups_c = Ret ab_c /\ merge groups_a bc = Ret a_bc /\
    (forall k, counters ab_c k = counters a_bc k) /\
    (forall k, counters ab k = counters ba k).
Proof.
  apply (merge_counters_assoc_comm groups_a groups_b groups_c); prove_wf_groups.
Defined.

(** C4, at two sources that share a client: the connection of the
    second source does not come after the two of the first, it is put in
    front of the last of them. *)
Theorem merge_puts_second_before_last :
  getConnectionAttempts lines_a = Ret groups_a /\
  getConnectionAttempts lines_b = Ret groups_b /\
  map_find (str "10.0.0.1") groups_a
    = Some [conn "10.0.0.1" 200 1; conn "10.0.0.1" 404 2] /\
  map_find (str "10.0.0.1") groups_b = Some [conn "10.0.0.1" 200 4] /\
  exists m,
    merge groups_a groups_b = Ret m /\
    collect [] [(str "a.log", lines_a); (str "b.log", lines_b)] = Ret m /\
    map_find (str "10.0.0.1") m
      = Some [conn "10.0.0.1" 200 1; conn "10.0.0.1" 200 4; conn "10.0.0.1" 404 2] /\
    map_find (str "10.0.0.1") m
      <> Some ([conn "10.0.0.1" 200 1; conn "10.0.0.1" 404 2] ++ [conn "10.0.0.1" 200 4]).
Proof.
  split; [vm_compute; reflexivity|]. split; [vm_compute; reflexivity|].
  split; [vm_compute; reflexivity|]. split; [vm_compute; reflexivity|].
  eexists. split; [vm_compute; reflexivity|].
  split; [vm_compute; reflexivity|].
  split; [vm_compute; reflexivity | vm_compute; discriminate].
Qed.

(** ** The order of the tables *)

Lemma merge_wf (a b m : smap group) :
  wf_groups a -> wf_groups b -> merge a b = Ret m -> wf_groups m.
Proof.
  intros Ha Hb E. destruct (merge_spec b a Ha Hb) as [m' [E' [W _]]].
  congruence.
Qed.

Lemma collect_wf (lines : smap (list cstring)) :
  forall total total',
    wf_groups total -> collect total lines = Ret total' -> wf_groups total'.
Proof.
  induction lines as [|[path logLines] rest IH]; intros total total' Hw H.
  - inversion H; subst. exact Hw.
  - cbn [collect] in H.
    destruct (getConnectionAttempts logLines) as [connections| | |] eqn:E;
      try discriminate.
    cbn [bind] in H.
    destruct (merge total connections) as [total1| | |] eqn:E1; try discriminate.
    cbn [bind] in H.
    exact (IH _ _ (merge_wf _ _ _ Hw (getConnectionAttempts_wf _ _ E) E1) H).
Qed.

(** The report is the tables of the entries, one after the other in the
    order of the map. *)
Lemma printUniqueIpStats_tables (ipMap : smap group) :
  forall report,
    printUniqueIpStats ipMap = Ret report ->
    exists tables,
      Forall2 (fun mapEntry table => renderTable mapEntry = Ret table) ipMap tables /\
      report = List.concat tables.
Proof.
  induction ipMap as [|mapEntry rest IH]; intros report H.
  - inversion H; subst. exists []. split; [constructor | reflexivity].
  - cbn [printUniqueIpStats] in H.
    destruct (renderTable mapEntry) as [table| | |] eqn:E; try discriminate.
    cbn [bind] in H.
    destruct (printUniqueIpStats rest) as [tables| | |] eqn:E1; try discriminate.
    cbn [bind] in H. inversion H; subst.
    destruct (IH _ eq_refl) as [ts [F C]].
    exists (table :: ts). split; [constructor; assumption|].
    cbn [List.concat]. rewrite C. reflexivity.
Qed.

(** A table is written for every source shorter than [2^32] characters. *)
Lemma renderTable_returns (mapEntry : cstring * group) :
  size (fst mapEntry) < 2 ^ 32 -> exists table, renderTable mapEntry = Ret table.
Proof.
  intros H. destruct mapEntry as [first connections]. cbn [fst] in H.
  pose proof (size_nonneg first) as H0.
  destruct (dataRow_returns (first, connections)) as [cells Hrow].
  unfold renderTable. cbn [fst].
  rewrite (sourceSpacers_fits first H). cbn [bind].
  assert (Hw : 0 <= sourceColumnWidth
                      (if size HEADER_CLIENT_SRC <? size first
                       then (repeat " "%char (Z.to_nat (size first / 2 - 3)),
                             repeat " "%char
                               (Z.to_nat (size first - (size first / 2 - 3) - 6)))
                       else ([" "%char], [" "%char])) <= max_size).
  { unfold sourceColumnWidth, wrap64, max_size.
    change (size HEADER_CLIENT_SRC) with 6.
    destruct (6 <? size first) eqn:E; [|vm_compute; split; discriminate].
    apply Z.ltb_lt in E. cbn [fst snd].
    pose proof (Z.div_mod (size first) 2) as Hd.
    pose proof (Z.mod_pos_bound (size first) 2) as Hm.
    rewrite !size_repeat by lia.
    rewrite Z.mod_small by lia. lia. }
  rewrite (fill_ret _ _ Hw). cbn [bind]. rewrite Hrow. cbn [bind].
  eexists. reflexivity.
Qed.

Lemma printUniqueIpStats_returns (ipMap : smap group) :
  Forall (fun mapEntry => size (fst mapEntry) < 2 ^ 32) ipMap ->
  exists report, printUniqueIpStats ipMap = Ret report.
Proof.
  induction 1 as [|mapEntry rest H _ [tables IH]]; [eexists; reflexivity|].
  destruct (renderTable_returns mapEntry H) as [table E].
  cbn [printUniqueIpStats]. rewrite E, IH. eexists. reflexivity.
Qed.

(** C3, as the code has it: the groups collected from the sources are in
    ascending order of client source, each source once; a table is
    written for each, and the report is these tables in that order. *)
Theorem tables_in_key_order (lines : smap (list cstring)) (total : smap group) :
  collect [] lines = Ret total ->
  Forall (fun mapEntry => size (fst mapEntry) < 2 ^ 32) total ->
  StronglySorted str_lt (keys total) /\
  NoDup (keys total) /\
  exists tables,
    Forall2 (fun mapEntry table => renderTable mapEntry = Ret table) total tables /\
    printUniqueIpStats total = Ret (List.concat tables).
Proof.
  intros H Hs.
  pose proof (proj1 (collect_wf lines [] total wf_groups_nil H)) as Hsorted.
  split; [exact Hsorted|].
  split; [exact (sorted_keys_NoDup total Hsorted)|].
  destruct (printUniqueIpStats_returns total Hs) as [report E].
  destruct (printUniqueIpStats_tables total report E) as [tables [F C]].
  exists tables. split; [exact F | subst report; exact E].
Qed.

Lemma tables_in_key_order_witness :
  StronglySorted str_lt (keys two_client_groups) /\
  NoDup (keys two_client_groups) /\
  exists tables,
    Forall2 (fun mapEntry table => renderTable mapEntry = Ret table)
      two_client_groups tables /\
    printUniqueIpStats two_client_groups = Ret (List.concat tables).
Proof.
  apply (tables_in_key_order two_client_lines two_client_groups).
  - vm_compute. reflexivity.
  - repeat constructor.
Defined.

(** The first source met in the lines is [beta.example], yet the first
    table of the report is the one of [alpha.example]. *)
Lemma tables_not_in_first_seen_order :
  exists first_line second_line alpha_table beta_table,
    two_client_lines = [(str "access.log", [first_line; second_line])] /\
    option_map clientSource
      (match parseConnectionFromLine first_line with Ret c => Some c | _ => None end)
      = Some (str "beta.example") /\
    option_map clientSource
      (match parseConnectionFromLine second_line with Ret c => Some c | _ => None end)
      = Some (str "alpha.example") /\
    collect [] two_client_lines = Ret two_client_groups /\
    keys two_client_groups = [str "alpha.example"; str "beta.example"] /\
    keys two_client_groups <> [str "beta.example"; str "alpha.example"] /\
    renderTable (str "alpha.example", flat (map_find (str "alpha.example") two_client_groups))
      = Ret alpha_table /\
    renderTable (str "beta.example", flat (map_find (str "beta.example") two_client_groups))
      = Ret beta_table /\
    printUniqueIpStats two_client_groups = Ret (alpha_table ++ beta_table) /\
    main two_client_lines
      = Ret (str "# HTTPD Report" ++ NL ++ str "## Total Unique IPs: 2" ++ NL ++ NL
             ++ alpha_table ++ beta_table) /\
    alpha_table ++ beta_table <> beta_table ++ alpha_table.
Proof.
  do 4 eexists.
  split; [reflexivity|].
  split; [vm_compute; reflexivity|].
  split; [vm_compute; reflexivity|].
  split; [vm_compute; reflexivity|].
  split; [reflexivity|].
  split; [discriminate|].
  split; [vm_compute; reflexivity|].
  split; [vm_compute; reflexivity|].
  split; [vm_compute; reflexivity|].
  split; [vm_compute; reflexivity|].
  vm_compute. discriminate.
Qed.

(** ** Searching and cutting strings *)

Lemma index_where_lt (p : ascii -> bool) (s : cstring) (i : nat) :
  index_where p s = Some i -> (i < List.length s)%nat.
Proof.
  revert i. induction s as [|c s IH]; cbn; intros i H; [discriminate|].
  destruct (p c); [inversion H; lia|].
  destruct (index_where p s) as [j|]; [|discriminate].
  inversion H; subst. specialize (IH j eq_refl). lia.
Qed.

Lemma index_where_none (p : ascii -> bool) (s : cstring) :
  (forall x, In x s -> p x = false) -> index_where p s = None.
Proof.
  induction s as [|c s IH]; cbn; intros H; [reflexivity|].
  rewrite (H c (or_introl eq_refl)), IH; [reflexivity|].
  intros x Hx. apply H. right. exact Hx.
Qed.

Lemma index_where_hit (p : ascii -> bool) (mid : cstring) (c : ascii) (post : cstring) :
  (forall x, In x mid -> p x = false) -> p c = true ->
  index_where p (mid ++ c :: post) = Some (List.length mid).
Proof.
  induction mid as [|d mid IH]; cbn; intros H Hc.
  - rewrite Hc. reflexivity.
  - rewrite (H d (or_introl eq_refl)), IH; [reflexivity | | exact Hc].
    intros x Hx. apply H. right. exact Hx.
Qed.

Lemma eqb_not_in (c : ascii) (s : cstring) :
  ~ In c s -> forall x, In x s -> Ascii.eqb c x = false.
Proof.
  intros H x Hx. apply Ascii.eqb_neq. intros ->. exact (H Hx).
Qed.

Lemma skipn_size_app (pre rest : cstring) (pos : Z) :
  pos = size pre -> skipn (Z.to_nat pos) (pre ++ rest) = rest.
Proof.
  intros ->. unfold size. rewrite Nat2Z.id, skipn_app, skipn_all, Nat.sub_diag.
  reflexivity.
Qed.

(** The result of a search is [npos] or an index from the start position
    on. *)
Lemma find_where_range (p : ascii -> bool) (s : cstring) (pos : Z) :
  0 <= pos ->
  find_where p s pos = npos \/ pos <= find_where p s pos < size s.
Proof.
  intros H. unfold find_where.
  destruct (size s <=? pos) eqn:E; [left; reflexivity|].
  apply Z.leb_gt in E.
  destruct (index_where p (skipn (Z.to_nat pos) s)) as [i|] eqn:Ei;
    [right | left; reflexivity].
  apply index_where_lt in Ei. rewrite length_skipn in Ei. unfold size in *. lia.
Qed.

Lemma find_where_past (p : ascii -> bool) (s : cstring) (pos : Z) :
  size s <= pos -> find_where p s pos = npos.
Proof.
  intros H. unfold find_where.
  destruct (size s <=? pos) eqn:E; [reflexivity | apply Z.leb_gt in E; lia].
Qed.

(** The character searched for is found behind a stretch that does not
    hold it. *)
Lemma find_skip (s pre mid post : cstring) (c : ascii) (pos : Z) :
  s = pre ++ mid ++ c :: post -> pos = size pre -> ~ In c mid ->
  find s c pos = size pre + size mid.
Proof.
  intros Hs Hp Hn. unfold find, find_where.
  destruct (size s <=? pos) eqn:E.
  - apply Z.leb_le in E. subst s pos.
    rewrite !size_app, size_cons in E.
    pose proof (size_nonneg mid). pose proof (size_nonneg post). lia.
  - subst s. rewrite (skipn_size_app _ _ _ Hp).
    rewrite (index_where_hit _ mid c post (eqb_not_in c mid Hn) (Ascii.eqb_refl c)).
    subst pos. reflexivity.
Qed.

Lemma find_none (s pre mid : cstring) (c : ascii) (pos : Z) :
  s = pre ++ mid -> size pre <= pos -> ~ In c mid -> find s c pos = npos.
Proof.
  intros Hs Hp Hn. unfold find, find_where.
  destruct (size s <=? pos); [reflexivity|].
  rewrite index_where_none; [reflexivity|].
  intros x Hx. apply Ascii.eqb_neq. intros ->. apply Hn.
  subst s.
  assert (Hsk : skipn (Z.to_nat pos) (pre ++ mid)
                = skipn (Z.to_nat pos - List.length pre) mid).
  { rewrite skipn_app, skipn_all2; [reflexivity|]. unfold size in Hp. lia. }
  rewrite Hsk in Hx.
  rewrite <- (firstn_skipn (Z.to_nat pos - List.length pre) mid).
  apply in_or_app. right. exact Hx.
Qed.

Lemma find_past (s : cstring) (c : ascii) (pos : Z) :
  size s <= pos -> find s c pos = npos.
Proof. apply find_where_past. Qed.

Lemma substr_mid (s pre mid post : cstring) (pos len : Z) :
  s = pre ++ mid ++ post -> pos = size pre -> len = size mid ->
  substr s pos len = Ret mid.
Proof.
  intros Hs Hp Hl. unfold substr.
  pose proof (size_nonneg post) as H0. pose proof (size_nonneg mid) as H1.
  destruct (size s <? pos) eqn:E.
  - apply Z.ltb_lt in E. subst s pos. rewrite !size_app in E. lia.
  - subst s. rewrite (skipn_size_app _ _ _ Hp). f_equal.
    rewrite !size_app. subst pos len.
    rewrite Z.min_l by lia. unfold size. rewrite Nat2Z.id.
    rewrite firstn_app, firstn_all, Nat.sub_diag. cbn. rewrite app_nil_r. reflexivity.
Qed.

Lemma substr_tail (s pre mid : cstring) (pos len : Z) :
  s = pre ++ mid -> pos = size pre -> size mid <= len ->
  substr s pos len = Ret mid.
Proof.
  intros Hs Hp Hl. unfold substr.
  pose proof (size_nonneg mid) as H1.
  destruct (size s <? pos) eqn:E.
  - apply Z.ltb_lt in E. subst s pos. rewrite !size_app in E. lia.
  - subst s. rewrite (skipn_size_app _ _ _ Hp). f_equal.
    rewrite !size_app. subst pos.
    rewrite Z.min_r by lia.
    replace (size pre + size mid - size pre) with (size mid) by lia.
    unfold size. rewrite Nat2Z.id, firstn_all. reflexivity.
Qed.

Lemma substr_throw (s : cstring) (pos len : Z) :
  size s < pos -> substr s pos len = Throw.
Proof.
  intros H. unfold substr. apply Z.ltb_lt in H. rewrite H. reflexivity.
Qed.

Lemma substr_ret (s : cstring) (pos len : Z) :
  pos <= size s -> exists t, substr s pos len = Ret t.
Proof.
  intros H. unfold substr.
  destruct (size s <? pos) eqn:E; [apply Z.ltb_lt in E; lia|].
  eexists. reflexivity.
Qed.

(** ** [splitString] returns *)

Lemma splitString_loop_returns (s delimiters : cstring) :
  size s < npos ->
  forall (fuel : nat) (lastPos pos : Z) (tokens : list cstring),
    (lastPos = npos -> pos = npos) ->
    (lastPos <> npos -> 0 <= lastPos <= size s) ->
    (pos = npos \/ 0 <= pos < size s) ->
    (if pos =? npos then (if lastPos =? npos then 0 else 1) else size s - pos + 1)
      <= Z.of_nat fuel ->
    exists result, splitString_loop fuel s delimiters lastPos pos tokens = Ret result.
Proof.
  intros Hs. induction fuel as [|fuel IH]; intros lastPos pos tokens H1 H2 H3 Hf.
  - cbn [splitString_loop].
    destruct (pos =? npos) eqn:E.
    + destruct (lastPos =? npos) eqn:E'; [|lia].
      apply Z.eqb_eq in E, E'. subst. rewrite Z.eqb_refl. eexists. reflexivity.
    + apply Z.eqb_neq in E. destruct H3 as [H3|H3]; [congruence | lia].
  - cbn [splitString_loop].
    destruct (negb (npos =? pos) || negb (npos =? lastPos)) eqn:Et;
      [|eexists; reflexivity].
    assert (Hl : lastPos <> npos).
    { intros Hl. rewrite (H1 Hl), Hl, Z.eqb_refl in Et. discriminate. }
    destruct (substr_ret s lastPos (wrap64 (pos - lastPos)) (proj2 (H2 Hl)))
      as [tok Etok].
    rewrite Etok. cbn [bind].
    destruct (npos =? pos) eqn:Ep.
    + apply Z.eqb_eq in Ep.
      unfold find_first_of. rewrite find_where_past by lia.
      apply IH; try tauto. rewrite !Z.eqb_refl. lia.
    + apply Z.eqb_neq in Ep.
      assert (Hp : 0 <= pos < size s) by (destruct H3; [congruence | assumption]).
      assert (Hpn : (pos =? npos) = false) by (apply Z.eqb_neq; congruence).
      rewrite Hpn in Hf.
      assert (Hw : wrap64 (pos + 1) = pos + 1)
        by (apply wrap64_small; unfold npos in Hs; lia).
      rewrite Hw.
      pose proof (find_where_range (fun c => mem_ascii c delimiters) s (pos + 1)
                    ltac:(lia)) as Hr.
      fold (find_first_of s delimiters (pos + 1)) in Hr.
      set (pos' := find_first_of s delimiters (pos + 1)) in *.
      assert (Hl' : (pos + 1 =? npos) = false)
        by (apply Z.eqb_neq; unfold npos in *; lia).
      apply IH.
      * intros Hx. apply Z.eqb_neq in Hl'. congruence.
      * intros _. lia.
      * destruct Hr as [Hr|Hr]; [left; exact Hr | right; lia].
      * rewrite Hl'. destruct (pos' =? npos) eqn:Ex; [lia|].
        apply Z.eqb_neq in Ex. destruct Hr as [Hr|Hr]; [congruence | lia].
Qed.

(** [splitString] always comes back with the list of tokens: the loop
    neither throws nor needs more turns than it is given. *)
Lemma splitString_returns (s delimiters : cstring) (tokens : list cstring) :
  size s < npos -> exists result, splitString s delimiters tokens = Ret result.
Proof.
  intros Hs. unfold splitString.
  pose proof (find_where_range (fun c => negb (mem_ascii c delimiters)) s 0
                ltac:(lia)) as Hl.
  fold (find_first_not_of s delimiters 0) in Hl.
  set (lastPos := find_first_not_of s delimiters 0) in *.
  assert (Hlp : lastPos = npos \/ 0 <= lastPos < size s) by tauto.
  assert (H0 : 0 <= lastPos).
  { destruct Hlp as [-> | ?]; [unfold npos|]; lia. }
  pose proof (find_where_range (fun c => mem_ascii c delimiters) s lastPos H0) as Hp.
  fold (find_first_of s delimiters lastPos) in Hp.
  apply splitString_loop_returns; try assumption.
  - intros E. unfold find_first_of. apply find_where_past. rewrite E. lia.
  - intros E. destruct Hlp; [congruence | lia].
  - destruct Hp as [Hp|Hp]; [left; exact Hp | right; lia].
  - destruct (find_first_of s delimiters lastPos =? npos) eqn:E.
    + destruct (lastPos =? npos); unfold size; lia.
    + destruct Hp as [Hp|Hp]; [apply Z.eqb_neq in E; congruence|].
      unfold size in *. lia.
Qed.

(** ** Lines that follow the layout *)

Ltac list_eq :=
  repeat first [rewrite <- app_assoc | progress (cbn [app])]; reflexivity.

Ltac norm_size :=
  repeat first [rewrite size_app | rewrite size_cons | rewrite size_nil].

Ltac unwrap :=
  repeat match goal with
         | |- context [wrap64 ?z] => rewrite (wrap64_small z) by lia
         end.

Ltac pos_eq := norm_size; unfold npos in *; unwrap; lia.

(** Rewrites the innermost search of the goal, the line being
    [pre ++ mid ++ c :: post] and the search starting behind [pre]. *)
Ltac find_step pre mid post :=
  match goal with
  | |- context [find ?s ?c ?p] =>
      lazymatch p with
      | context [find _ _ _] => fail
      | _ => rewrite (find_skip s pre mid post c p);
             [ | list_eq | pos_eq | assumption || (cbn; intuition discriminate) ]
      end
  end.

(** Rewrites a [substr] that cuts [mid] out of [pre ++ mid ++ post]. *)
Ltac substr_step pre mid post :=
  match goal with
  | |- context [substr ?s ?p ?l] =>
      rewrite (substr_mid s pre mid post p l);
      [ cbn [bind] | list_eq | pos_eq | pos_eq ]
  end.

(** The parser is its first half, which cuts out the four leading
    fields, followed by [parseFromQuote]. *)
Lemma parse_split (line : cstring) :
  parseConnectionFromLine line =
    (let offset2 := find line SPACE 0 in
     clientSource <- substr line 0 offset2 ;;
     let offset := wrap64 (offset2 + 1) in
     let offset2 := find line SPACE offset in
     clientId <- substr line offset (wrap64 (offset2 - offset)) ;;
     let offset := wrap64 (offset2 + 1) in
     let offset2 := find line SPACE offset in
     userId <- substr line offset (wrap64 (offset2 - offset)) ;;
     let offset := wrap64 (find line "["%char (wrap64 (offset2 + 1)) + 1) in
     let offset2 := find line "]"%char offset in
     timestamp <- substr line offset (wrap64 (offset2 - offset)) ;;
     let offset := wrap64 (find line QUOTE (wrap64 (offset2 + 1)) + 1) in
     parseFromQuote line clientSource clientId userId timestamp offset).
Proof. reflexivity. Qed.

Section Header.

Variables src cid uid ts tail : cstring.

Let line : cstring := layout_head src cid uid ts tail.

Hypothesis Hsrc : ~ In SPACE src.
Hypothesis Hcid : ~ In SPACE cid.
Hypothesis Huid : ~ In SPACE uid.
Hypothesis Hts : ~ In "]"%char ts.
Hypothesis Hlen : size line < npos.

Lemma size_layout_head :
  size line = size src + size cid + size uid + size ts + size tail + 7.
Proof. unfold line, layout_head. norm_size. lia. Qed.

(** The first four fields are cut out as the layout has them, and the
    parser goes on behind the opening quote. *)
Lemma parse_header :
  parseConnectionFromLine line
  = parseFromQuote line src cid uid ts (size line - size tail).
Proof.
  pose proof (size_nonneg src). pose proof (size_nonneg cid).
  pose proof (size_nonneg uid). pose proof (size_nonneg ts).
  pose proof (size_nonneg tail).
  pose proof size_layout_head as Hsz. rewrite Hsz in Hlen.
  unfold parseConnectionFromLine, parseFromQuote.
  cbv zeta.
  set (t4 := ts ++ "]"%char :: SPACE :: QUOTE :: tail).
  set (t3 := uid ++ SPACE :: "["%char :: t4).
  set (t2 := cid ++ SPACE :: t3).
  find_step (@nil ascii) src t2.
  substr_step (@nil ascii) src (SPACE :: t2).
  find_step (src ++ [SPACE]) cid t3.
  substr_step (src ++ [SPACE]) cid (SPACE :: t3).
  find_step (src ++ SPACE :: cid ++ [SPACE]) uid ("["%char :: t4).
  substr_step (src ++ SPACE :: cid ++ [SPACE]) uid (SPACE :: "["%char :: t4).
  find_step (src ++ SPACE :: cid ++ SPACE :: uid ++ [SPACE]) (@nil ascii) t4.
  find_step (src ++ SPACE :: cid ++ SPACE :: uid ++ [SPACE; "["%char]) ts
    (SPACE :: QUOTE :: tail).
  substr_step (src ++ SPACE :: cid ++ SPACE :: uid ++ [SPACE; "["%char]) ts
    ("]"%char :: SPACE :: QUOTE :: tail).
  find_step
    (src ++ SPACE :: cid ++ SPACE :: uid ++ SPACE :: "["%char :: ts ++ ["]"%char])
    [SPACE] tail.
  match goal with
  | |- context [wrap64 (?a + size [SPACE] + 1)] =>
      replace (wrap64 (a + size [SPACE] + 1)) with (size line - size tail)
        by (rewrite Hsz; pos_eq)
  end.
  reflexivity.
Qed.

End Header.

(** Behind an opening quote that is never closed the request runs to the
    end of the line, and the search for the space in front of the status
    starts at [npos]: the [substr] of the status throws. *)
Lemma parseFromQuote_unclosed (line pre tail a b c d : cstring) (offset : Z) :
  line = pre ++ tail -> offset = size pre ->
  ~ In QUOTE tail -> size line < npos ->
  parseFromQuote line a b c d offset =
    (tokens <- splitString tail WHITESPACE [] ;;
     _ <- at_index tokens 0 ;;
     _ <- at_index tokens 1 ;;
     _ <- at_index tokens 2 ;;
     Throw).
Proof.
  intros Hline Hoff Hq Hlen.
  pose proof (size_nonneg pre). pose proof (size_nonneg tail).
  assert (Hsz : size line = size pre + size tail) by (subst line; apply size_app).
  unfold parseFromQuote. cbv zeta.
  rewrite (find_none line pre tail QUOTE (wrap64 (offset + 1)) Hline)
    by (assumption || pos_eq).
  rewrite (substr_tail line pre tail offset (wrap64 (npos - offset)) Hline Hoff)
    by pos_eq.
  cbn [bind].
  rewrite (find_past line SPACE npos) by lia.
  rewrite (substr_throw line npos) by exact Hlen.
  reflexivity.
Qed.

(** Behind the opening quote of a line that follows the layout, the
    request, the status and the size are cut out as the layout has
    them. *)
Lemma parseFromQuote_layout (line pre req status sz a b c d : cstring) (offset : Z) :
  line = pre ++ req ++ QUOTE :: SPACE :: status ++ SPACE :: sz ->
  offset = size pre ->
  req <> [] -> ~ In QUOTE req -> ~ In SPACE status -> size line < npos ->
  parseFromQuote line a b c d offset =
    (tokens <- splitString req WHITESPACE [] ;;
     httpRequestMethod <- at_index tokens 0 ;;
     requestUri <- at_index tokens 1 ;;
     httpVersion <- at_index tokens 2 ;;
     httpStatusCode <- atoi (SPACE :: status) ;;
     responseSize <- atoi sz ;;
     Ret (mkConnection a b c d httpRequestMethod requestUri httpVersion
            httpStatusCode responseSize)).
Proof.
  intros Hline Hoff Hne Hq Hst Hlen.
  destruct req as [|r0 req]; [congruence|].
  assert (Hq' : ~ In QUOTE req) by (intros Hin; apply Hq; right; exact Hin).
  pose proof (size_nonneg pre). pose proof (size_nonneg req).
  pose proof (size_nonneg status). pose proof (size_nonneg sz).
  assert (Hsz : size line = size pre + size req + size status + size sz + 4).
  { subst line. norm_size. lia. }
  rewrite Hsz in Hlen. subst offset line.
  unfold parseFromQuote. cbv zeta.
  find_step (pre ++ [r0]) req (SPACE :: status ++ SPACE :: sz).
  substr_step pre (r0 :: req) (QUOTE :: SPACE :: status ++ SPACE :: sz).
  find_step (pre ++ r0 :: req) [QUOTE] (status ++ SPACE :: sz).
  find_step (pre ++ r0 :: req ++ [QUOTE; SPACE]) status sz.
  substr_step (pre ++ r0 :: req ++ [QUOTE]) (SPACE :: status) (SPACE :: sz).
  match goal with
  | |- context [substr ?s ?p npos] =>
      rewrite (substr_tail s (pre ++ r0 :: req ++ QUOTE :: SPACE :: status ++ [SPACE])
                 sz p npos); [ | list_eq | pos_eq | pos_eq ]
  end.
  reflexivity.
Qed.

(** The parse of a line that follows the layout. *)
Lemma parse_layout_line (src cid uid ts req status sz : cstring) :
  ~ In SPACE src -> ~ In SPACE cid -> ~ In SPACE uid -> ~ In "]"%char ts ->
  req <> [] -> ~ In QUOTE req -> ~ In SPACE status ->
  size (layout_line src cid uid ts req status sz) < npos ->
  parseConnectionFromLine (layout_line src cid uid ts req status sz) =
    (tokens <- splitString req WHITESPACE [] ;;
     httpRequestMethod <- at_index tokens 0 ;;
     requestUri <- at_index tokens 1 ;;
     httpVersion <- at_index tokens 2 ;;
     httpStatusCode <- atoi (SPACE :: status) ;;
     responseSize <- atoi sz ;;
     Ret (mkConnection src cid uid ts httpRequestMethod requestUri httpVersion
            httpStatusCode responseSize)).
Proof.
  intros Hsrc Hcid Huid Hts Hne Hq Hst Hlen. unfold layout_line in *.
  rewrite (parse_header src cid uid ts _ Hsrc Hcid Huid Hts Hlen).
  apply (parseFromQuote_layout _
           (src ++ SPACE :: cid ++ SPACE :: uid ++ SPACE :: "["%char :: ts
                ++ "]"%char :: SPACE :: [QUOTE]) req status sz);
    try assumption.
  - unfold layout_head. list_eq.
  - unfold layout_head. norm_size. lia.
Qed.

(** The line of the common log format parses to its connection. *)
Lemma parse_example_line :
  parseConnectionFromLine example_line = Ret example_connection.
Proof. vm_compute. reflexivity. Qed.

(** ** The loops of the model have fuel enough *)

Lemma substr_size (s t : cstring) (pos len : Z) :
  substr s pos len = Ret t -> size t <= size s.
Proof.
  unfold substr. destruct (size s <? pos); [discriminate|].
  intros H. inversion H; subst. clear H. unfold size.
  rewrite length_firstn, length_skipn. lia.
Qed.

Lemma substr_fuel (s : cstring) (pos len : Z) : substr s pos len <> NoFuel.
Proof. unfold substr. destruct (size s <? pos); discriminate. Qed.

Lemma at_index_fuel {A : Type} (v : list A) (i : nat) : at_index v i <> NoFuel.
Proof. unfold at_index. destruct (nth_error v i); discriminate. Qed.

Lemma atoi_fuel (s : cstring) : atoi s <> NoFuel.
Proof.
  unfold atoi.
  match goal with |- context [if ?b then _ else _] => destruct b end; discriminate.
Qed.

Lemma splitString_fuel (s delimiters : cstring) (tokens : list cstring) :
  size s < npos -> splitString s delimiters tokens <> NoFuel.
Proof.
  intros H. destruct (splitString_returns s delimiters tokens H) as [r E].
  rewrite E. discriminate.
Qed.

(** The parser never stops for want of fuel: on every line it returns a
    connection, throws, or has undefined behaviour. *)
Lemma parse_has_fuel (line : cstring) :
  size line < npos -> parseConnectionFromLine line <> NoFuel.
Proof.
  intros Hlen. unfold parseConnectionFromLine. cbv zeta.
  repeat match goal with
         | |- bind ?m _ <> NoFuel =>
             let E := fresh "E" in
             destruct m eqn:E; cbn [bind];
             [ | discriminate | discriminate
               | exfalso;
                 first [ exact (substr_fuel _ _ _ E)
                       | exact (at_index_fuel _ _ E)
                       | exact (atoi_fuel _ E)
                       | refine (splitString_fuel _ _ _ _ E);
                         match goal with
                         | H : substr line _ _ = Ret ?t |- size ?t < npos =>
                             pose proof (substr_size _ _ _ _ H); lia
                         end ] ]
         end.
  discriminate.
Qed.

Lemma addLines_has_fuel (logLines : list cstring) :
  Forall (fun line => size line < npos) logLines ->
  forall connections,
    addLines parseConnectionFromLine connections logLines <> NoFuel.
Proof.
  induction 1 as [|line rest Hl _ IH]; intros connections; cbn [addLines];
    [discriminate|].
  pose proof (parse_has_fuel line Hl) as Hp.
  unfold addLine. destruct line as [|ch line]; cbn [bind]; [apply IH|].
  destruct (parseConnectionFromLine (ch :: line)) as [connection| | |];
    [ | cbn [bind]; apply IH | discriminate | congruence ].
  destruct (map_find (clientSource connection) connections); cbn [bind]; apply IH.
Qed.

(** ** Unclosed request lines *)

Lemma addLine_throw (connections : smap group) (line : cstring) :
  parseConnectionFromLine line = Throw ->
  addLine parseConnectionFromLine connections line = Ret connections.
Proof.
  intros H. unfold addLine. destruct line; [reflexivity|].
  rewrite H. reflexivity.
Qed.

Lemma at_index_ret {A : Type} (v : list A) (i : nat) :
  (i < List.length v)%nat -> exists a, at_index v i = Ret a.
Proof.
  intros H. unfold at_index.
  destruct (nth_error v i) eqn:E; [eexists; reflexivity|].
  apply nth_error_None in E. lia.
Qed.

(** C1, as the code has it: on a line that follows the layout up to the
    quote opening the request, has no closing quote and has at least
    three tokens behind the opening quote, the parser throws
    ([substr] refuses the offset [npos]); no connection comes out of it,
    the loop over the lines catches the exception and goes on with the
    groups as they were. *)
Theorem unclosed_request_is_skipped (src cid uid ts rest : cstring)
    (tokens : list cstring) (connections : smap group) (more : list cstring) :
  ~ In SPACE src -> ~ In SPACE cid -> ~ In SPACE uid -> ~ In "]"%char ts ->
  ~ In QUOTE rest ->
  size (layout_head src cid uid ts rest) < npos ->
  splitString rest WHITESPACE [] = Ret tokens ->
  (3 <= List.length tokens)%nat ->
  parseConnectionFromLine (layout_head src cid uid ts rest) = Throw /\
  addLine parseConnectionFromLine connections (layout_head src cid uid ts rest)
    = Ret connections /\
  addLines parseConnectionFromLine connections (layout_head src cid uid ts rest :: more)
    = addLines parseConnectionFromLine connections more.
Proof.
  intros Hsrc Hcid Huid Hts Hq Hlen Htok Hn.
  assert (Hp : parseConnectionFromLine (layout_head src cid uid ts rest) = Throw).
  { rewrite (parse_header src cid uid ts rest Hsrc Hcid Huid Hts Hlen).
    rewrite (parseFromQuote_unclosed _
               (src ++ SPACE :: cid ++ SPACE :: uid ++ SPACE :: "["%char :: ts
                    ++ "]"%char :: SPACE :: [QUOTE]) rest).
    - rewrite Htok. cbn [bind].
      destruct (at_index_ret tokens 0 ltac:(lia)) as [t0 E0].
      destruct (at_index_ret tokens 1 ltac:(lia)) as [t1 E1].
      destruct (at_index_ret tokens 2 ltac:(lia)) as [t2 E2].
      rewrite E0, E1, E2. reflexivity.
    - unfold layout_head. list_eq.
    - unfold layout_head. norm_size. lia.
    - exact Hq.
    - exact Hlen. }
  split; [exact Hp|].
  pose proof (addLine_throw connections _ Hp) as Ha.
  split; [exact Ha|].
  cbn [addLines]. rewrite Ha. reflexivity.
Qed.

Lemma unclosed_request_is_skipped_witness :
  parseConnectionFromLine
    (layout_head (str "1.2.3.4") (str "-") (str "-") (str "t")
       (str "GET / HTTP/1.1 200 5")) = Throw /\
  addLine parseConnectionFromLine groups_a
    (layout_head (str "1.2.3.4") (str "-") (str "-") (str "t")
       (str "GET / HTTP/1.1 200 5")) = Ret groups_a /\
  addLines parseConnectionFromLine groups_a
    (layout_head (str "1.2.3.4") (str "-") (str "-") (str "t")
       (str "GET / HTTP/1.1 200 5") :: one_client_lines)
    = addLines parseConnectionFromLine groups_a one_client_lines.
Proof.
  apply (unclosed_request_is_skipped (str "1.2.3.4") (str "-") (str "-") (str "t")
           (str "GET / HTTP/1.1 200 5")
           [str "GET"; str "/"; str "HTTP/1.1"; str "200"; str "5"]).
  - vm_compute. intuition discriminate.
  - vm_compute. intuition discriminate.
  - vm_compute. intuition discriminate.
  - vm_compute. intuition discriminate.
  - vm_compute. intuition discriminate.
  - vm_compute. reflexivity.
  - vm_compute. reflexivity.
  - vm_compute. lia.
Defined.

(** A line without the bracket that closes the time stamp is not
    refused: the time stamp runs to the end of the line, the search for
    the request starts again at the head of the line, and the connection
    goes into the groups. *)
Lemma unclosed_bracket_is_parsed :
  ~ In "]"%char unclosed_bracket_line /\
  exists connection,
    parseConnectionFromLine unclosed_bracket_line = Ret connection /\
    timestamp connection = quoted "10/Oct/2023 " "GET / HTTP/1.1" " 200 5" /\
    getConnectionAttempts [] = Ret [] /\
    getConnectionAttempts [unclosed_bracket_line]
      = Ret [(str "1.2.3.4", [connection])].
Proof.
  split; [vm_compute; intuition discriminate|].
  eexists. split; [vm_compute; reflexivity|].
  split; [vm_compute; reflexivity|].
  split; vm_compute; reflexivity.
Qed.

(** ** The fields of a parsed connection *)

Lemma atoi_range (s : cstring) (v : Z) :
  atoi s = Ret v -> INT_MIN <= v <= INT_MAX.
Proof.
  unfold atoi.
  match goal with |- context [if ?b then _ else _] => destruct b eqn:E end;
    [|discriminate].
  intros H. inversion H; subst. clear H.
  apply andb_true_iff in E. destruct E as [E1 E2].
  apply Z.leb_le in E1, E2. split; assumption.
Qed.

Ltac bind_inv H :=
  repeat match type of H with
         | bind ?m _ = Ret _ =>
             let E := fresh "E" in
             destruct m eqn:E; cbn [bind] in H; try discriminate
         end.

Lemma parse_ranges (line : cstring) (r : Connection) :
  parseConnectionFromLine line = Ret r ->
  INT_MIN <= httpStatusCode r <= INT_MAX /\ INT_MIN <= responseSize r <= INT_MAX.
Proof.
  unfold parseConnectionFromLine. cbv zeta. intros H.
  bind_inv H. inversion H; subst; clear H. cbn.
  split; eapply atoi_range; eassumption.
Qed.

(** C2, as the code has it: a connection that comes out of the parser
    has its status code and its response size in the range of [int]; on a
    line that follows the layout its first four fields are the ones of
    the line, its request fields are the first three tokens of the
    request, its status code is [atoi] of the status text and its
    response size [atoi] of the size text, so that the size ["-"] gives
    0. *)
Theorem parsed_record_fields (line : cstring) (r : Connection) :
  parseConnectionFromLine line = Ret r ->
  INT_MIN <= httpStatusCode r <= INT_MAX /\
  INT_MIN <= responseSize r <= INT_MAX /\
  forall src cid uid ts req status sz,
    line = layout_line src cid uid ts req status sz ->
    ~ In SPACE src -> ~ In SPACE cid -> ~ In SPACE uid -> ~ In "]"%char ts ->
    req <> [] -> ~ In QUOTE req -> ~ In SPACE status -> size line < npos ->
    clientSource r = src /\ clientId r = cid /\ userId r = uid /\ timestamp r = ts /\
    (exists tokens,
       splitString req WHITESPACE [] = Ret tokens /\
       nth_error tokens 0 = Some (httpRequestMethod r) /\
       nth_error tokens 1 = Some (requestUri r) /\
       nth_error tokens 2 = Some (httpVersion r)) /\
    atoi (SPACE :: status) = Ret (httpStatusCode r) /\
    atoi sz = Ret (responseSize r) /\
    (sz = str "-" -> responseSize r = 0).
Proof.
  intros Hp.
  destruct (parse_ranges line r Hp) as [R1 R2].
  split; [exact R1|]. split; [exact R2|].
  intros src cid uid ts req status sz Hline Hsrc Hcid Huid Hts Hne Hq Hst Hlen.
  subst line.
  rewrite (parse_layout_line src cid uid ts req status sz
             Hsrc Hcid Huid Hts Hne Hq Hst Hlen) in Hp.
  bind_inv Hp. inversion Hp; subst; clear Hp. cbn.
  unfold at_index in *.
  repeat match goal with
         | H : match nth_error ?l ?i with _ => _ end = Ret _ |- _ =>
             destruct (nth_error l i) eqn:?; [inversion H; subst; clear H | discriminate]
         end.
  repeat (split; [reflexivity|]).
  split; [eexists; repeat split; eassumption|].
  repeat (split; [reflexivity|]).
  intros ->.
  match goal with
  | H : atoi _ = Ret ?x |- ?x = 0 => vm_compute in H; inversion H; reflexivity
  end.
Qed.

Lemma parsed_record_fields_witness :
  INT_MIN <= httpStatusCode example_connection <= INT_MAX /\
  INT_MIN <= responseSize example_connection <= INT_MAX /\
  forall src cid uid ts req status sz,
    example_line = layout_line src cid uid ts req status sz ->
    ~ In SPACE src -> ~ In SPACE cid -> ~ In SPACE uid -> ~ In "]"%char ts ->
    req <> [] -> ~ In QUOTE req -> ~ In SPACE status -> size example_line < npos ->
    clientSource example_connection = src /\ clientId example_connection = cid /\
    userId example_connection = uid /\ timestamp example_connection = ts /\
    (exists tokens,
       splitString req WHITESPACE [] = Ret tokens /\
       nth_error tokens 0 = Some (httpRequestMethod example_connection) /\
       nth_error tokens 1 = Some (requestUri example_connection) /\
       nth_error tokens 2 = Some (httpVersion example_connection)) /\
    atoi (SPACE :: status) = Ret (httpStatusCode example_connection) /\
    atoi sz = Ret (responseSize example_connection) /\
    (sz = str "-" -> responseSize example_connection = 0).
Proof.
  apply (parsed_record_fields example_line example_connection).
  vm_compute. reflexivity.
Defined.

(** A size text made of a minus sign and digits gives a negative response
    size. *)
Lemma negative_response_size :
  exists connection,
    parseConnectionFromLine
      (quoted "1.2.3.4 - - [t] " "GET / HTTP/1.1" " 200 -5")
      = Ret connection /\
    responseSize connection = -5 /\
    ~ 0 <= responseSize connection.
Proof.
  eexists. split; [vm_compute; reflexivity|].
  split; [reflexivity | cbn; lia].
Qed.

(** * Further properties *)

(** ** The tokens of [splitString] *)

Lemma index_where_Some (p : ascii -> bool) (s : cstring) (i : nat) :
  index_where p s = Some i ->
  exists mid c post,
    s = mid ++ c :: post /\ List.length mid = i /\
    (forall x, In x mid -> p x = false) /\ p c = true.
Proof.
  revert i. induction s as [|a s IH]; cbn; intros i H; [discriminate|].
  destruct (p a) eqn:Ea.
  - inversion H; subst. exists [], a, s. repeat split; auto. intros x [].
  - destruct (index_where p s) as [j|]; [|discriminate].
    inversion H; subst.
    destruct (IH j eq_refl) as [mid [c [post [E [L [F Hc]]]]]].
    exists (a :: mid), c, post. subst s. repeat split; cbn; auto.
    intros x [<-|Hx]; auto.
Qed.

Lemma index_where_None (p : ascii -> bool) (s : cstring) :
  index_where p s = None -> forall x, In x s -> p x = false.
Proof.
  induction s as [|a s IH]; cbn; intros H x Hx; [contradiction|].
  destruct (p a) eqn:Ea; [discriminate|].
  destruct (index_where p s); [discriminate|].
  destruct Hx as [<-|Hx]; auto.
Qed.

Lemma find_where_hit (p : ascii -> bool) (s pre mid post : cstring) (c : ascii)
    (pos : Z) :
  s = pre ++ mid ++ c :: post -> pos = size pre ->
  (forall x, In x mid -> p x = false) -> p c = true ->
  find_where p s pos = size pre + size mid.
Proof.
  intros Hs Hp Hn Hc. unfold find_where.
  destruct (size s <=? pos) eqn:E.
  - apply Z.leb_le in E. subst s pos.
    rewrite !size_app, size_cons in E.
    pose proof (size_nonneg mid). pose proof (size_nonneg post). lia.
  - subst s. rewrite (skipn_size_app _ _ _ Hp).
    rewrite (index_where_hit _ mid c post Hn Hc). subst pos. reflexivity.
Qed.

Lemma find_where_miss (p : ascii -> bool) (s pre rest : cstring) (pos : Z) :
  s = pre ++ rest -> pos = size pre ->
  (forall x, In x rest -> p x = false) ->
  find_where p s pos = npos.
Proof.
  intros Hs Hp Hn. unfold find_where.
  destruct (size s <=? pos); [reflexivity|].
  subst s. rewrite (skipn_size_app _ _ _ Hp), (index_where_none _ _ Hn).
  reflexivity.
Qed.

Lemma fields_free (delimiters s : cstring) :
  (forall x, In x s -> mem_ascii x delimiters = false) ->
  fields delimiters s = (s, []).
Proof.
  induction s as [|c s IH]; intros H; cbn [fields]; [reflexivity|].
  rewrite IH by (intros x Hx; apply H; right; exact Hx).
  rewrite (H c (or_introl eq_refl)). reflexivity.
Qed.

Lemma split_fields_free (delimiters s : cstring) :
  (forall x, In x s -> mem_ascii x delimiters = false) ->
  split_fields delimiters s = [s].
Proof. intros H. unfold split_fields. rewrite (fields_free _ _ H). reflexivity. Qed.

Lemma split_fields_delimiter (delimiters mid post : cstring) (c : ascii) :
  (forall x, In x mid -> mem_ascii x delimiters = false) ->
  mem_ascii c delimiters = true ->
  split_fields delimiters (mid ++ c :: post) = mid :: split_fields delimiters post.
Proof.
  intros Hm Hc. unfold split_fields.
  induction mid as [|a mid IH]; cbn [app fields].
  - destruct (fields delimiters post) as [f fs]. rewrite Hc. reflexivity.
  - assert (IH' := IH (fun x Hx => Hm x (or_intror Hx))).
    destruct (fields delimiters (mid ++ c :: post)) as [f fs].
    rewrite (Hm a (or_introl eq_refl)). cbn [fst snd] in *.
    inversion IH'; subst. reflexivity.
Qed.

(** The loop from a position [lastPos] inside the string on: it appends
    the fields of what is behind [lastPos]. *)
Lemma splitString_loop_fields (s delimiters : cstring) :
  size s < npos ->
  forall (fuel : nat) (pre rest : cstring) (tokens : list cstring),
    s = pre ++ rest ->
    (List.length rest < fuel)%nat ->
    splitString_loop fuel s delimiters (size pre)
      (find_first_of s delimiters (size pre)) tokens
    = Ret (tokens ++ split_fields delimiters rest).
Proof.
  intros Hlen. induction fuel as [|fuel IH]; intros pre rest tokens Hs Hf; [lia|].
  pose proof (size_nonneg pre) as Hpre. pose proof (size_nonneg rest) as Hrest.
  assert (Hsz : size s = size pre + size rest) by (subst s; apply size_app).
  assert (Hnp : (npos =? size pre) = false)
    by (apply Z.eqb_neq; unfold npos in *; lia).
  cbn [splitString_loop]. rewrite Hnp. rewrite orb_true_r.
  destruct (index_where (fun c => mem_ascii c delimiters) rest) as [i|] eqn:Ei.
  - destruct (index_where_Some _ _ _ Ei) as [mid [c [post [Er [_ [Hm Hc]]]]]].
    subst rest.
    pose proof (size_nonneg mid). pose proof (size_nonneg post).
    rewrite size_app, size_cons in Hsz.
    assert (Hfind : find_first_of s delimiters (size pre) = size pre + size mid)
      by exact (find_where_hit _ s pre mid post c (size pre) Hs eq_refl Hm Hc).
    rewrite !Hfind.
    rewrite (substr_mid s pre mid (c :: post) (size pre)
               (wrap64 (size pre + size mid - size pre)) Hs eq_refl)
      by (unfold npos in *; rewrite wrap64_small by lia; lia).
    cbn [bind].
    assert (Hq : (npos =? size pre + size mid) = false)
      by (apply Z.eqb_neq; unfold npos in *; lia).
    rewrite Hq.
    assert (Hw : wrap64 (size pre + size mid + 1) = size (pre ++ mid ++ [c])).
    { rewrite !size_app, size_cons, size_nil. unfold npos in *.
      rewrite wrap64_small by lia. lia. }
    rewrite Hw.
    transitivity (Ret ((tokens ++ [mid]) ++ split_fields delimiters post)).
    + apply IH.
      * subst s. list_eq.
      * rewrite length_app in Hf. cbn [List.length] in Hf. lia.
    + rewrite (split_fields_delimiter _ _ _ _ Hm Hc), <- app_assoc. reflexivity.
  - pose proof (index_where_None _ _ Ei) as Hn.
    assert (Hfind : find_first_of s delimiters (size pre) = npos)
      by exact (find_where_miss _ s pre rest (size pre) Hs eq_refl Hn).
    rewrite !Hfind.
    rewrite (substr_tail s pre rest (size pre) (wrap64 (npos - size pre)) Hs eq_refl)
      by (unfold npos in *; rewrite wrap64_small by lia; lia).
    cbn [bind]. rewrite Z.eqb_refl.
    unfold find_first_of. rewrite (find_where_past _ s npos) by lia.
    rewrite (split_fields_free _ _ Hn).
    destruct fuel; cbn [splitString_loop]; rewrite Z.eqb_refl; reflexivity.
Qed.

Lemma drop_delimiters_split (delimiters s : cstring) :
  exists lead,
    s = lead ++ drop_delimiters delimiters s /\
    (forall x, In x lead -> mem_ascii x delimiters = true) /\
    (forall c rest, drop_delimiters delimiters s = c :: rest ->
                    mem_ascii c delimiters = false).
Proof.
  induction s as [|a s [lead [E [Hl Hh]]]]; cbn [drop_delimiters].
  - exists []. split; [reflexivity|]. split; [intros x []|].
    intros c rest H. discriminate.
  - destruct (mem_ascii a delimiters) eqn:Ea.
    + exists (a :: lead). split; [cbn; f_equal; exact E|].
      split; [|exact Hh].
      intros x [<-|Hx]; [exact Ea | exact (Hl x Hx)].
    + exists []. split; [reflexivity|]. split; [intros x []|].
      intros c rest H. inversion H; subst. exact Ea.
Qed.

(** [splitString] appends the tokens of the string. *)
Lemma splitString_tokens_of (s delimiters : cstring) (tokens : list cstring) :
  size s < npos ->
  splitString s delimiters tokens = Ret (tokens ++ tokens_of delimiters s).
Proof.
  intros Hlen. unfold splitString, tokens_of.
  destruct (drop_delimiters_split delimiters s) as [lead [E [Hl Hh]]].
  destruct (drop_delimiters delimiters s) as [|c rest] eqn:Ed.
  - rewrite app_nil_r in E. subst lead.
    assert (H1 : find_first_not_of s delimiters 0 = npos).
    { unfold find_first_not_of.
      apply (find_where_miss _ s [] s 0 eq_refl eq_refl).
      intros x Hx. rewrite (Hl x Hx). reflexivity. }
    rewrite H1. unfold find_first_of. rewrite (find_where_past _ s npos) by lia.
    cbn [splitString_loop]. rewrite Z.eqb_refl, app_nil_r. reflexivity.
  - assert (H1 : find_first_not_of s delimiters 0 = size lead).
    { unfold find_first_not_of.
      rewrite (find_where_hit _ s [] lead rest c 0 E eq_refl).
      - rewrite size_nil. lia.
      - intros x Hx. rewrite (Hl x Hx). reflexivity.
      - rewrite (Hh c rest eq_refl). reflexivity. }
    rewrite H1.
    apply (splitString_loop_fields s delimiters Hlen _ lead (c :: rest) tokens E).
    rewrite E, length_app. lia.
Qed.

Lemma fields_free_of (delimiters s : cstring) :
  free_of delimiters (fst (fields delimiters s)) /\
  Forall (free_of delimiters) (snd (fields delimiters s)).
Proof.
  induction s as [|c s [IH1 IH2]]; cbn [fields].
  - split; [intros x [] | constructor].
  - destruct (fields delimiters s) as [f fs]. cbn [fst snd] in *.
    destruct (mem_ascii c delimiters) eqn:Ec; cbn [fst snd].
    + split; [intros x [] | constructor; assumption].
    + split; [|exact IH2]. intros x [<-|Hx]; [exact Ec | exact (IH1 x Hx)].
Qed.

Lemma fields_count (delimiters s : cstring) :
  List.length (snd (fields delimiters s))
  = List.length (filter (fun c => mem_ascii c delimiters) s).
Proof.
  induction s as [|c s IH]; cbn [fields filter]; [reflexivity|].
  destruct (fields delimiters s) as [f fs]. cbn [snd] in IH.
  destruct (mem_ascii c delimiters); cbn [snd List.length]; lia.
Qed.

Lemma tokens_of_free (delimiters s : cstring) :
  Forall (free_of delimiters) (tokens_of delimiters s).
Proof.
  unfold tokens_of. destruct (drop_delimiters delimiters s) as [|c rest];
    [constructor|].
  destruct (fields_free_of delimiters (c :: rest)) as [F1 F2].
  constructor; assumption.
Qed.

(** X1: [splitString] never throws and appends the tokens of the string:
    the leading delimiters are passed over, and what is behind them is cut
    at every delimiter, so that no token holds a delimiter and there is
    one token more than there are delimiters behind the leading ones (two
    delimiters in a row, or one at the end, give an empty token). A
    string of delimiters only gives no token. *)
Theorem splitString_splits (s delimiters : cstring) (tokens : list cstring) :
  size s < npos ->
  splitString s delimiters tokens = Ret (tokens ++ tokens_of delimiters s) /\
  Forall (free_of delimiters) (tokens_of delimiters s) /\
  (drop_delimiters delimiters s = [] -> tokens_of delimiters s = []) /\
  (drop_delimiters delimiters s <> [] ->
   List.length (tokens_of delimiters s)
   = S (List.length (filter (fun c => mem_ascii c delimiters)
                       (drop_delimiters delimiters s)))).
Proof.
  intros Hlen. split; [exact (splitString_tokens_of s delimiters tokens Hlen)|].
  split; [exact (tokens_of_free delimiters s)|].
  unfold tokens_of.
  destruct (drop_delimiters delimiters s) as [|c rest].
  - split; [reflexivity | congruence].
  - split; [discriminate|].
    intros _. unfold split_fields. cbn [List.length].
    rewrite (fields_count delimiters (c :: rest)). reflexivity.
Qed.

Lemma splitString_splits_witness :
  splitString (str "  GET  /index.html HTTP/1.1 ") WHITESPACE []
    = Ret ([] ++ tokens_of WHITESPACE (str "  GET  /index.html HTTP/1.1 ")) /\
  Forall (free_of WHITESPACE) (tokens_of WHITESPACE (str "  GET  /index.html HTTP/1.1 ")) /\
  (drop_delimiters WHITESPACE (str "  GET  /index.html HTTP/1.1 ") = [] ->
   tokens_of WHITESPACE (str "  GET  /index.html HTTP/1.1 ") = []) /\
  (drop_delimiters WHITESPACE (str "  GET  /index.html HTTP/1.1 ") <> [] ->
   List.length (tokens_of WHITESPACE (str "  GET  /index.html HTTP/1.1 "))
   = S (List.length (filter (fun c => mem_ascii c WHITESPACE)
                       (drop_delimiters WHITESPACE (str "  GET  /index.html HTTP/1.1 "))))).
Proof.
  apply (splitString_splits (str "  GET  /index.html HTTP/1.1 ") WHITESPACE []).
  vm_compute. reflexivity.
Defined.

Lemma join_split_fields (d : ascii) (s : cstring) :
  join d (split_fields [d] s) = s.
Proof.
  unfold split_fields. induction s as [|c s IH]; cbn [fields]; [reflexivity|].
  destruct (fields [d] s) as [f fs]. cbn [fst snd] in IH.
  destruct (mem_ascii c [d]) eqn:Ec; cbn [fst snd].
  - unfold mem_ascii in Ec. cbn in Ec. rewrite orb_false_r in Ec.
    apply Ascii.eqb_eq in Ec. subst c.
    change (join d ([] :: f :: fs)) with ([] ++ d :: join d (f :: fs)).
    rewrite IH. reflexivity.
  - destruct fs as [|g fs].
    + cbn in *. f_equal. exact IH.
    + change (join d ((c :: f) :: g :: fs)) with ((c :: f) ++ d :: join d (g :: fs)).
      change (join d (f :: g :: fs)) with (f ++ d :: join d (g :: fs)) in IH.
      cbn [app]. f_equal. exact IH.
Qed.

(** X2: with a single delimiter the split can be undone: the tokens of
    [splitString], put together with the delimiter between them, are the
    string without its leading delimiters. *)
Theorem splitString_join (s : cstring) (d : ascii) :
  size s < npos ->
  exists tokens,
    splitString s [d] [] = Ret tokens /\
    join d tokens = drop_delimiters [d] s.
Proof.
  intros Hlen. exists (tokens_of [d] s).
  split; [exact (splitString_tokens_of s [d] [] Hlen)|].
  unfold tokens_of. destruct (drop_delimiters [d] s) as [|c rest]; [reflexivity|].
  apply join_split_fields.
Qed.

Lemma splitString_join_witness :
  exists tokens,
    splitString (str "||a|b||c|") ["|"%char] [] = Ret tokens /\
    join "|"%char tokens = drop_delimiters ["|"%char] (str "||a|b||c|").
Proof.
  apply (splitString_join (str "||a|b||c|") "|"%char). vm_compute. reflexivity.
Defined.

(** ** Lines of the layout parse to their fields *)

Lemma tokens_of_request (method uri version : cstring) :
  method <> [] ->
  free_of WHITESPACE method -> free_of WHITESPACE uri -> free_of WHITESPACE version ->
  tokens_of WHITESPACE (request_text method uri version) = [method; uri; version].
Proof.
  intros Hne Hm Hu Hv. unfold tokens_of, request_text.
  assert (Hsp : mem_ascii SPACE WHITESPACE = true) by reflexivity.
  destruct method as [|c method]; [congruence|].
  cbn [app drop_delimiters]. rewrite (Hm c (or_introl eq_refl)).
  change (c :: method ++ SPACE :: uri ++ SPACE :: version)
    with ((c :: method) ++ SPACE :: uri ++ SPACE :: version).
  rewrite (split_fields_delimiter _ _ _ _ Hm Hsp).
  rewrite (split_fields_delimiter _ _ _ _ Hu Hsp).
  rewrite (split_fields_free _ _ Hv). reflexivity.
Qed.

(** X3: a line that follows the layout, with a request of three tokens
    and numbers that [atoi] reads, parses to the connection made of the
    fields of the line: nothing is thrown, nothing is undefined. *)
Theorem parse_layout_record (src cid uid ts method uri version status sz : cstring)
    (code responseSize : Z) :
  ~ In SPACE src -> ~ In SPACE cid -> ~ In SPACE uid -> ~ In "]"%char ts ->
  method <> [] ->
  free_of (QUOTE :: WHITESPACE) method ->
  free_of (QUOTE :: WHITESPACE) uri ->
  free_of (QUOTE :: WHITESPACE) version ->
  ~ In SPACE status ->
  atoi (SPACE :: status) = Ret code ->
  atoi sz = Ret responseSize ->
  size (layout_line src cid uid ts (request_text method uri version) status sz)
    < npos ->
  parseConnectionFromLine
    (layout_line src cid uid ts (request_text method uri version) status sz)
  = Ret (mkConnection src cid uid ts method uri version code responseSize).
Proof.
  intros Hsrc Hcid Huid Hts Hne Hm Hu Hv Hst Hcode Hsize Hlen.
  assert (Hfree : forall t, free_of (QUOTE :: WHITESPACE) t ->
                            free_of WHITESPACE t /\ ~ In QUOTE t).
  { intros t Ht. split.
    - intros x Hx. specialize (Ht x Hx). unfold mem_ascii in *. cbn [existsb] in Ht.
      apply orb_false_iff in Ht. exact (proj2 Ht).
    - intros Hin. specialize (Ht QUOTE Hin). discriminate. }
  destruct (Hfree _ Hm) as [Wm Qm]. destruct (Hfree _ Hu) as [Wu Qu].
  destruct (Hfree _ Hv) as [Wv Qv].
  assert (Hq : ~ In QUOTE (request_text method uri version)).
  { unfold request_text. intros Hin.
    apply in_app_or in Hin. destruct Hin as [Hin|[Hin|Hin]]; [tauto | discriminate |].
    apply in_app_or in Hin. destruct Hin as [Hin|[Hin|Hin]]; [tauto | discriminate | tauto]. }
  assert (Hreq : request_text method uri version <> []).
  { unfold request_text. destruct method; [congruence | discriminate]. }
  rewrite (parse_layout_line src cid uid ts _ status sz
             Hsrc Hcid Huid Hts Hreq Hq Hst Hlen).
  assert (Hs : size (request_text method uri version) < npos).
  { unfold layout_line, layout_head in Hlen. revert Hlen. norm_size.
    pose proof (size_nonneg src). pose proof (size_nonneg cid).
    pose proof (size_nonneg uid). pose proof (size_nonneg ts).
    pose proof (size_nonneg status). pose proof (size_nonneg sz).
    pose proof (size_nonneg (request_text method uri version)). lia. }
  rewrite (splitString_tokens_of _ WHITESPACE [] Hs).
  rewrite (tokens_of_request method uri version Hne Wm Wu Wv).
  cbn [app bind at_index nth_error]. rewrite Hcode, Hsize. reflexivity.
Qed.

Lemma parse_layout_record_witness :
  parseConnectionFromLine
    (layout_line (str "127.0.0.1") (str "-") (str "frank")
       (str "10/Oct/2023:13:55:36 -0700")
       (request_text (str "GET") (str "/index.html") (str "HTTP/1.1"))
       (str "200") (str "2326"))
  = Ret (mkConnection (str "127.0.0.1") (str "-") (str "frank")
           (str "10/Oct/2023:13:55:36 -0700")
           (str "GET") (str "/index.html") (str "HTTP/1.1") 200 2326).
Proof.
  apply (parse_layout_record (str "127.0.0.1") (str "-") (str "frank")
           (str "10/Oct/2023:13:55:36 -0700")
           (str "GET") (str "/index.html") (str "HTTP/1.1") (str "200") (str "2326")).
  - vm_compute. intuition discriminate.
  - vm_compute. intuition discriminate.
  - vm_compute. intuition discriminate.
  - vm_compute. intuition discriminate.
  - discriminate.
  - intros x Hx. vm_compute in Hx.
    repeat (destruct Hx as [<-|Hx]; [reflexivity|]). contradiction.
  - intros x Hx. vm_compute in Hx.
    repeat (destruct Hx as [<-|Hx]; [reflexivity|]). contradiction.
  - intros x Hx. vm_compute in Hx.
    repeat (destruct Hx as [<-|Hx]; [reflexivity|]). contradiction.
  - vm_compute. intuition discriminate.
  - vm_compute. reflexivity.
  - vm_compute. reflexivity.
  - vm_compute. reflexivity.
Defined.

(** ** What the fields of a parsed connection never hold *)

Lemma substr_until (p : ascii -> bool) (s t : cstring) (pos len : Z) :
  size s < npos -> 0 <= pos <= size s ->
  len = wrap64 (find_where p s pos - pos) ->
  substr s pos len = Ret t ->
  forall x, In x t -> p x = false.
Proof.
  intros Hlen Hpos Hl Hsub.
  assert (Hs : s = firstn (Z.to_nat pos) s ++ skipn (Z.to_nat pos) s)
    by (symmetry; apply firstn_skipn).
  assert (Hp : pos = size (firstn (Z.to_nat pos) s)).
  { unfold size in *. rewrite length_firstn. lia. }
  set (pre := firstn (Z.to_nat pos) s) in *.
  set (rest := skipn (Z.to_nat pos) s) in *.
  pose proof (size_nonneg rest) as Hr.
  assert (Hsz : size s = pos + size rest) by (rewrite Hs, size_app; lia).
  destruct (index_where p rest) as [i|] eqn:Ei.
  - destruct (index_where_Some _ _ _ Ei) as [mid [c [post [Er [_ [Hm Hc]]]]]].
    rewrite Er in Hs, Hsz. rewrite size_app, size_cons in Hsz.
    pose proof (size_nonneg mid). pose proof (size_nonneg post).
    rewrite (find_where_hit p s pre mid post c pos Hs Hp Hm Hc) in Hl.
    rewrite (substr_mid s pre mid (c :: post) pos len Hs Hp) in Hsub.
    + inversion Hsub; subst t. exact Hm.
    + subst len. unfold npos in *. rewrite wrap64_small by lia. lia.
  - pose proof (index_where_None _ _ Ei) as Hn.
    rewrite (find_where_miss p s pre rest pos Hs Hp Hn) in Hl.
    rewrite (substr_tail s pre rest pos len Hs Hp) in Hsub.
    + inversion Hsub; subst t. exact Hn.
    + subst len. unfold npos in *. rewrite wrap64_small by lia. lia.
Qed.

(** The offset behind the result of a search is inside the string, or
    is 0 when the search fails. *)
Lemma next_offset_range (p : ascii -> bool) (s : cstring) (pos : Z) :
  size s < npos -> 0 <= pos ->
  0 <= wrap64 (find_where p s pos + 1) <= size s.
Proof.
  intros Hlen Hpos. pose proof (size_nonneg s).
  destruct (find_where_range p s pos Hpos) as [E|E].
  - rewrite E. unfold npos, wrap64. cbn. lia.
  - unfold npos in *. rewrite wrap64_small by lia. lia.
Qed.

Lemma not_in_eqb (c : ascii) (t : cstring) :
  (forall x, In x t -> Ascii.eqb c x = false) -> ~ In c t.
Proof. intros H Hin. specialize (H c Hin). rewrite Ascii.eqb_refl in H. discriminate. Qed.

(** X4: whatever the line, a connection that comes out of the parser has
    no space in its source, client id and user id, no closing bracket in
    its time stamp, and no white space in its method, URI and version. *)
Theorem parsed_fields_hold_no_separator (line : cstring) (r : Connection) :
  size line < npos ->
  parseConnectionFromLine line = Ret r ->
  ~ In SPACE (clientSource r) /\ ~ In SPACE (clientId r) /\ ~ In SPACE (userId r) /\
  ~ In "]"%char (timestamp r) /\
  free_of WHITESPACE (httpRequestMethod r) /\
  free_of WHITESPACE (requestUri r) /\
  free_of WHITESPACE (httpVersion r).
Proof.
  intros Hlen H. pose proof (size_nonneg line) as H0.
  unfold parseConnectionFromLine in H. cbv zeta in H. unfold find in H.
  bind_inv H. inversion H; subst; clear H. cbn.
  set (o1 := find_where (Ascii.eqb SPACE) line 0) in *.
  set (p1 := wrap64 (o1 + 1)) in *.
  set (o2 := find_where (Ascii.eqb SPACE) line p1) in *.
  set (p2 := wrap64 (o2 + 1)) in *.
  set (o3 := find_where (Ascii.eqb SPACE) line p2) in *.
  set (p3 := wrap64 (o3 + 1)) in *.
  set (b := find_where (Ascii.eqb "["%char) line p3) in *.
  set (p4 := wrap64 (b + 1)) in *.
  assert (R1 : 0 <= p1 <= size line) by (apply next_offset_range; [exact Hlen | lia]).
  assert (R2 : 0 <= p2 <= size line) by (apply next_offset_range; [exact Hlen | lia]).
  assert (R3 : 0 <= p3 <= size line) by (apply next_offset_range; [exact Hlen | lia]).
  assert (R4 : 0 <= p4 <= size line) by (apply next_offset_range; [exact Hlen | lia]).
  assert (W1 : o1 = wrap64 (o1 - 0)).
  { destruct (find_where_range (Ascii.eqb SPACE) line 0 ltac:(lia)) as [F|F];
      fold o1 in F; unfold npos in *; rewrite wrap64_small by lia; lia. }
  match goal with
  | Ht : splitString ?req WHITESPACE [] = Ret ?toks, Hr : substr line _ _ = Ret ?req
    |- _ =>
      pose proof (substr_size _ _ _ _ Hr) as Hreq;
      rewrite (splitString_tokens_of req WHITESPACE [] ltac:(lia)) in Ht;
      cbn [app] in Ht; inversion Ht; subst toks; clear Ht;
      pose proof (tokens_of_free WHITESPACE req) as Hfree
  end.
  rewrite Forall_forall in Hfree.
  assert (Htok : forall i t, at_index (tokens_of WHITESPACE a3) i = Ret t ->
                             free_of WHITESPACE t).
  { intros i t Hi. unfold at_index in Hi.
    destruct (nth_error (tokens_of WHITESPACE a3) i) as [u|] eqn:En; [|discriminate].
    inversion Hi; subst u. exact (Hfree t (nth_error_In _ _ En)). }
  split; [apply not_in_eqb;
          exact (substr_until _ line a 0 o1 Hlen ltac:(lia) W1 E)|].
  split; [apply not_in_eqb;
          exact (substr_until _ line a0 p1 _ Hlen R1 eq_refl E0)|].
  split; [apply not_in_eqb;
          exact (substr_until _ line a1 p2 _ Hlen R2 eq_refl E1)|].
  split; [apply not_in_eqb;
          exact (substr_until _ line a2 p4 _ Hlen R4 eq_refl E2)|].
  split; [exact (Htok _ _ E5)|]. split; [exact (Htok _ _ E6) | exact (Htok _ _ E7)].
Qed.

Lemma parsed_fields_hold_no_separator_witness :
  ~ In SPACE (clientSource example_connection) /\
  ~ In SPACE (clientId example_connection) /\
  ~ In SPACE (userId example_connection) /\
  ~ In "]"%char (timestamp example_connection) /\
  free_of WHITESPACE (httpRequestMethod example_connection) /\
  free_of WHITESPACE (requestUri example_connection) /\
  free_of WHITESPACE (httpVersion example_connection).
Proof.
  apply (parsed_fields_hold_no_separator example_line example_connection);
    vm_compute; reflexivity.
Defined.

(** ** A text wider than its column *)

Lemma wrap64_negative (z : Z) : - 2 ^ 64 <= z < 0 -> wrap64 z = z + 2 ^ 64.
Proof.
  intros H. unfold wrap64.
  rewrite <- (Z_mod_plus_full z 1 (2 ^ 64)).
  apply Z.mod_small. lia.
Qed.

Lemma fill_throw (n : Z) (c : ascii) : max_size < n -> fill n c = Throw.
Proof. intros H. unfold fill. apply Z.ltb_lt in H. rewrite H. reflexivity. Qed.

(** X5: when the text is longer than the column, [getSpacerStrings] does
    not return: one of the two lengths wraps around below zero and the
    string of that many spaces is refused with an exception. *)
Theorem getSpacerStrings_overlong (width : Z) (centreString : cstring) :
  0 <= width < 2 ^ 32 ->
  width < size centreString ->
  size centreString <= max_size ->
  getSpacerStrings width centreString = Throw.
Proof.
  intros Hw Hs Hm. unfold getSpacerStrings, max_size in *.
  pose proof (Z.div_mod width 2) as Hd. pose proof (Z.mod_pos_bound width 2) as Hb.
  pose proof (Z.div_mod (size centreString) 2) as Hd'.
  pose proof (Z.mod_pos_bound (size centreString) 2) as Hb'.
  destruct (Z.eq_dec (width / 2) (size centreString / 2)) as [E|E].
  - rewrite E, Z.sub_diag. rewrite wrap64_small by lia.
    rewrite fill_ret by (unfold max_size; lia). cbn [bind].
    change (size (repeat " "%char (Z.to_nat 0))) with 0.
    rewrite wrap64_negative by lia.
    rewrite fill_throw by (unfold max_size; lia). reflexivity.
  - assert (width / 2 < size centreString / 2) by lia.
    rewrite wrap64_negative by lia.
    rewrite fill_throw by (unfold max_size; lia). reflexivity.
Qed.

Lemma getSpacerStrings_overlong_witness :
  getSpacerStrings 11 (str "123456789012") = Throw.
Proof.
  apply (getSpacerStrings_overlong 11 (str "123456789012"));
    [lia | vm_compute; reflexivity | vm_compute; discriminate].
Defined.

(** ** The three rows of a table *)

Lemma centred11_size (cell : cstring) (total : Z) : centred11 cell total -> size cell = 11.
Proof. intros H. exact (proj2 (proj2 (proj2 H))). Qed.

Lemma rows_assoc (b a1 a2 a3 h n r rc row t : cstring) :
  b ++ a1 ++ a2 ++ a3 ++ h ++ n ++ b ++ r ++ rc ++ n ++ row ++ t
  = (b ++ a1 ++ a2 ++ a3 ++ h) ++ n ++ (b ++ r ++ rc) ++ n ++ row ++ t.
Proof. repeat rewrite <- app_assoc. reflexivity. Qed.

(** X6: in the table of a group the header row and the rule under it are
    equally long, the source column taking 8 characters for a source of
    at most 6 and the length of the source otherwise; the data row is as
    long as they are only for a source of more than 6 characters, since
    the source is printed without padding. *)
Theorem table_row_widths (first : cstring) (connections : group) :
  size first < 2 ^ 32 ->
  exists headerRow ruleRow row,
    renderTable (first, connections)
      = Ret (headerRow ++ NL ++ ruleRow ++ NL ++ row ++ NL ++ NL
             ++ str "----------" ++ NL ++ NL) /\
    size headerRow = size ruleRow /\
    size ruleRow = (if 6 <? size first then size first else 8) + 110 /\
    size row = size first + 110.
Proof.
  intros Hf. pose proof (size_nonneg first) as H0.
  destruct (countCells_centred _ (tally_range connections)) as [cells [Ec Hc]].
  unfold totals_list in Hc.
  repeat match goal with
         | H : Forall2 _ _ (_ :: _) |- _ =>
             let S1 := fresh "S" in
             inversion H as [|? ? ? ? S1 ?]; subst; clear H;
             apply centred11_size in S1
         | H : Forall2 _ _ [] |- _ => inversion H; subst; clear H
         end.
  unfold renderTable, dataRow. cbn [fst snd].
  rewrite (sourceSpacers_fits first Hf), Ec. cbn [bind].
  set (sep := if size HEADER_CLIENT_SRC <? size first
              then (repeat " "%char (Z.to_nat (size first / 2 - 3)),
                    repeat " "%char (Z.to_nat (size first - (size first / 2 - 3) - 6)))
              else ([" "%char], [" "%char])).
  set (w := if 6 <? size first then size first else 8).
  assert (Hw' : 0 <= w < 2 ^ 32) by (subst w; destruct (6 <? size first); lia).
  assert (Hw : sourceColumnWidth sep = w).
  { subst sep w. unfold sourceColumnWidth. change (size HEADER_CLIENT_SRC) with 6.
    destruct (6 <? size first) eqn:E; [|reflexivity].
    apply Z.ltb_lt in E. cbn [fst snd].
    pose proof (Z.div_mod (size first) 2) as Hd.
    pose proof (Z.mod_pos_bound (size first) 2) as Hm.
    rewrite !size_repeat by lia. rewrite wrap64_small by lia. lia. }
  assert (Hs : size (fst sep) + size HEADER_CLIENT_SRC + size (snd sep) = w).
  { rewrite <- Hw. unfold sourceColumnWidth. symmetry. apply wrap64_small.
    subst sep. change (size HEADER_CLIENT_SRC) with 6.
    destruct (6 <? size first) eqn:E; [|cbn; lia].
    apply Z.ltb_lt in E. cbn [fst snd].
    pose proof (Z.div_mod (size first) 2) as Hd.
    pose proof (Z.mod_pos_bound (size first) 2) as Hm.
    rewrite !size_repeat by lia. lia. }
  rewrite Hw.
  rewrite fill_ret by (unfold max_size; lia). cbn [bind].
  set (hc := str "| Total 200 | Total 204 | Total 301 | Total 400 | Total 401 | Total 403 | Total 404 | Total 500 | Total 503 |").
  set (rc := str "|-----------|-----------|-----------|-----------|-----------|-----------|-----------|-----------|-----------|").
  assert (Hhc : size hc = 109) by reflexivity.
  assert (Hrc : size rc = 109) by reflexivity.
  exists (BAR ++ fst sep ++ HEADER_CLIENT_SRC ++ snd sep ++ hc).
  exists (BAR ++ repeat "-"%char (Z.to_nat w) ++ rc).
  match goal with
  | |- context [List.concat ?l] => exists (BAR ++ first ++ List.concat l ++ BAR)
  end.
  split; [f_equal; apply rows_assoc|].
  cbn [map List.concat].
  norm_size. rewrite Hhc, Hrc, size_repeat by lia.
  change (size BAR) with 1. lia.
Qed.

Lemma table_row_widths_witness :
  exists headerRow ruleRow row,
    renderTable (str "10.0.0.1", [conn "10.0.0.1" 200 1])
      = Ret (headerRow ++ NL ++ ruleRow ++ NL ++ row ++ NL ++ NL
             ++ str "----------" ++ NL ++ NL) /\
    size headerRow = size ruleRow /\
    size ruleRow = (if 6 <? size (str "10.0.0.1") then size (str "10.0.0.1") else 8) + 110 /\
    size row = size (str "10.0.0.1") + 110.
Proof.
  apply (table_row_widths (str "10.0.0.1") [conn "10.0.0.1" 200 1]).
  vm_compute. reflexivity.
Defined.

(** ** What the counters add up to *)

Lemma count_status_sum_cons (c : Connection) :
  (if httpStatusCode c =? OK then 1 else 0)
  + (if httpStatusCode c =? NO_CONTENT then 1 else 0)
  + (if httpStatusCode c =? MOVED_PERMANENTLY then 1 else 0)
  + (if httpStatusCode c =? BAD_REQUEST then 1 else 0)
  + (if httpStatusCode c =? UNAUTHORIZED then 1 else 0)
  + (if httpStatusCode c =? FORBIDDEN then 1 else 0)
  + (if httpStatusCode c =? NOT_FOUND then 1 else 0)
  + (if httpStatusCode c =? INTERNAL_SERVER_ERROR then 1 else 0)
  + (if httpStatusCode c =? SERVICE_UNAVAILABLE then 1 else 0)
  = (if is_tracked c then 1 else 0).
Proof.
  unfold is_tracked, tracked, OK, NO_CONTENT, MOVED_PERMANENTLY, BAD_REQUEST,
    UNAUTHORIZED, FORBIDDEN, NOT_FOUND, INTERNAL_SERVER_ERROR, SERVICE_UNAVAILABLE.
  cbn [existsb]. split_codes; cbn; lia.
Qed.

Lemma count_status_sum (l : group) :
  count_status OK l + count_status NO_CONTENT l + count_status MOVED_PERMANENTLY l
  + count_status BAD_REQUEST l + count_status UNAUTHORIZED l
  + count_status FORBIDDEN l + count_status NOT_FOUND l
  + count_status INTERNAL_SERVER_ERROR l + count_status SERVICE_UNAVAILABLE l
  = Z.of_nat (List.length (filter is_tracked l)).
Proof.
  induction l as [|c l IH]; [reflexivity|].
  rewrite !count_status_cons. cbn [filter].
  pose proof (count_status_sum_cons c) as Hc.
  destruct (is_tracked c); cbn [List.length]; lia.
Qed.

(** X7: for a group of fewer than [2^32] connections the nine counters
    add up to the number of connections whose status code is one of the
    nine counted; each connection is counted at most once, so the sum is
    never more than the size of the group. *)
Theorem counters_add_up (connections : group) :
  Z.of_nat (List.length connections) < 2 ^ 32 ->
  totals_sum (tally connections)
    = Z.of_nat (List.length (filter is_tracked connections)) /\
  totals_sum (tally connections) <= Z.of_nat (List.length connections).
Proof.
  intros Hn.
  assert (H : totals_sum (tally connections)
              = Z.of_nat (List.length (filter is_tracked connections))).
  { rewrite tally_fields. unfold totals_sum.
    cbn [total200 total204 total301 total400 total401 total403 total404
           total500 total503].
    rewrite !wrap32_small
      by (match goal with
          | |- 0 <= count_status ?code _ < _ =>
              pose proof (count_status_range code connections); lia
          end).
    apply count_status_sum. }
  split; [exact H|]. rewrite H.
  pose proof (filter_length_le is_tracked connections). lia.
Qed.

Lemma counters_add_up_witness :
  totals_sum (tally one_client_group)
    = Z.of_nat (List.length (filter is_tracked one_client_group)) /\
  totals_sum (tally one_client_group) <= Z.of_nat (List.length one_client_group).
Proof.
  apply (counters_add_up one_client_group). vm_compute. reflexivity.
Defined.

(** ** [countHttpResults] and the counters of the report *)

Lemma to_int32_small (z : Z) : 0 <= z < 2 ^ 31 -> to_int32 z = z.
Proof.
  intros H. unfold to_int32. rewrite wrap32_small by lia.
  destruct (z <? 2 ^ 31) eqn:E; [reflexivity | apply Z.ltb_ge in E; lia].
Qed.

(** X8: for a group of fewer than [2^31] connections, [countHttpResults]
    is the number of connections with the given status code, and for each
    of the nine counted codes it is the counter that the report prints. *)
Theorem countHttpResults_is_counter (connections : group) (statusCode : Z) :
  Z.of_nat (List.length connections) < 2 ^ 31 ->
  countHttpResults connections statusCode = count_status statusCode connections /\
  0 <= countHttpResults connections statusCode <= Z.of_nat (List.length connections) /\
  (In statusCode tracked ->
   counter (tally connections) statusCode
     = Some (countHttpResults connections statusCode)).
Proof.
  intros Hn. pose proof (count_status_range statusCode connections) as Hr.
  assert (H : countHttpResults connections statusCode
              = count_status statusCode connections).
  { unfold countHttpResults. fold (count_status statusCode connections).
    apply to_int32_small. lia. }
  split; [exact H|]. split; [rewrite H; exact Hr|].
  intros Ht. rewrite (counter_tally _ _ Ht), H. f_equal.
  apply wrap32_small. lia.
Qed.

Lemma countHttpResults_is_counter_witness :
  countHttpResults one_client_group OK = count_status OK one_client_group /\
  0 <= countHttpResults one_client_group OK
    <= Z.of_nat (List.length one_client_group) /\
  (In OK tracked ->
   counter (tally one_client_group) OK = Some (countHttpResults one_client_group OK)).
Proof.
  apply (countHttpResults_is_counter one_client_group OK). vm_compute. reflexivity.
Defined.

(** ** The result of [getLongestClientSource] *)

Lemma getLongestClientSource_loop_result (entries : smap group) (maxWidth : Z) :
  forall largestString,
    fst (getLongestClientSource_loop entries maxWidth largestString) = largestString \/
    (In (fst (getLongestClientSource_loop entries maxWidth largestString))
        (keys entries) /\
     size (fst (getLongestClientSource_loop entries maxWidth largestString))
       <= wrap64 maxWidth).
Proof.
  induction entries as [|[first connections] rest IH]; intros largestString;
    cbn [getLongestClientSource_loop fst keys map]; [left; reflexivity|].
  destruct ((size first <=? wrap64 maxWidth) && (size largestString <? size first))
    eqn:E.
  - apply andb_true_iff in E. destruct E as [E _]. apply Z.leb_le in E.
    right. destruct (IH first) as [H|[H1 H2]].
    + rewrite H. split; [left; reflexivity | exact E].
    + split; [right; exact H1 | exact H2].
  - destruct (size first =? wrap64 maxWidth); [left; reflexivity|].
    destruct (wrap64 maxWidth <? size first); [left; reflexivity|].
    destruct (IH largestString) as [H|[H1 H2]]; [left; exact H|].
    right. split; [right; exact H1 | exact H2].
Qed.

(** X9: [getLongestClientSource] gives one of the client sources, and
    then one that is no longer than [maxWidth]; or, when no source was
    taken, the filler of 32 characters (the character being [maxWidth]
    cut to a [char]) or, leaving by [return], the empty string. *)
Theorem getLongestClientSource_result (totalConnections : smap group) (maxWidth : Z) :
  (In (getLongestClientSource totalConnections maxWidth) (keys totalConnections) /\
   size (getLongestClientSource totalConnections maxWidth) <= wrap64 maxWidth) \/
  getLongestClientSource totalConnections maxWidth
    = repeat (ascii_of_N (Z.to_N (maxWidth mod 256))) 32 \/
  getLongestClientSource totalConnections maxWidth = [].
Proof.
  unfold getLongestClientSource.
  pose proof (getLongestClientSource_loop_result totalConnections maxWidth []) as H.
  destruct (getLongestClientSource_loop totalConnections maxWidth [])
    as [largestString returned].
  cbn [fst] in H.
  destruct H as [H|H].
  - subst largestString. destruct returned; [right; right | right; left]; reflexivity.
  - destruct returned; [left; exact H|].
    destruct largestString as [|c largestString]; [right; left; reflexivity|].
    left. exact H.
Qed.

(** X10: when every client source is shorter than [maxWidth], the loop
    of [getLongestClientSource] runs to the end and the result is at
    least as long as every client source. *)
Theorem getLongestClientSource_longest (totalConnections : smap group)
    (maxWidth : Z) (k : cstring) :
  Forall (fun key => size key < wrap64 maxWidth) (keys totalConnections) ->
  In k (keys totalConnections) ->
  size k <= size (getLongestClientSource totalConnections maxWidth).
Proof.
  intros Hall Hk.
  assert (L : forall entries largestString,
             Forall (fun key => size key < wrap64 maxWidth) (keys entries) ->
             let r := getLongestClientSource_loop entries maxWidth largestString in
             snd r = false /\ size largestString <= size (fst r) /\
             forall key, In key (keys entries) -> size key <= size (fst r)).
  { induction entries as [|[first connections] rest IH]; intros largestString Hf;
      cbn [getLongestClientSource_loop keys map fst snd] in *.
    - split; [reflexivity|]. split; [lia|]. intros key [].
    - inversion Hf as [|? ? Hfirst Hrest]; subst. cbn [fst] in Hfirst.
      assert (E1 : (size first <=? wrap64 maxWidth) = true) by (apply Z.leb_le; lia).
      assert (E2 : (size first =? wrap64 maxWidth) = false) by (apply Z.eqb_neq; lia).
      assert (E3 : (wrap64 maxWidth <? size first) = false) by (apply Z.ltb_ge; lia).
      rewrite E1, E2, E3. cbn [andb].
      destruct (size largestString <? size first) eqn:E.
      + apply Z.ltb_lt in E. destruct (IH first Hrest) as [R1 [R2 R3]].
        split; [exact R1|]. split; [lia|].
        intros key [<-|Hin]; [exact R2 | exact (R3 key Hin)].
      + apply Z.ltb_ge in E. destruct (IH largestString Hrest) as [R1 [R2 R3]].
        split; [exact R1|]. split; [exact R2|].
        intros key [<-|Hin]; [lia | exact (R3 key Hin)]. }
  specialize (L totalConnections [] Hall). cbv zeta in L.
  destruct L as [R1 [_ R3]]. specialize (R3 k Hk).
  unfold getLongestClientSource.
  destruct (getLongestClientSource_loop totalConnections maxWidth [])
    as [largestString returned].
  cbn [fst snd] in *. subst returned.
  destruct largestString as [|c largestString]; [|exact R3].
  unfold size in *. rewrite repeat_length. cbn [List.length] in R3. lia.
Qed.

Lemma getLongestClientSource_longest_witness :
  size (str "10.0.0.2") <= size (getLongestClientSource groups_c 80).
Proof.
  apply (getLongestClientSource_longest groups_c 80 (str "10.0.0.2")).
  - repeat constructor.
  - vm_compute. auto.
Defined.

(** ** The groups of [getConnectionAttempts] *)

Lemma from_source_eq (k : cstring) (c : Connection) :
  from_source k c = true <-> clientSource c = k.
Proof.
  unfold from_source. destruct (str_compare k (clientSource c)) eqn:E.
  - apply str_compare_eq in E. split; auto.
  - split; [discriminate|]. intros H. rewrite H, str_compare_refl in E. discriminate.
  - split; [discriminate|]. intros H. rewrite H, str_compare_refl in E. discriminate.
Qed.

Lemma addLine_same (parse : cstring -> outcome Connection)
    (connections : smap group) (line : cstring) :
  wf_groups connections ->
  addLine parse connections line = Ret connections ->
  parsed_of parse [line] = [] ->
  exists connections',
    addLine parse connections line = Ret connections' /\
    wf_groups connections' /\
    forall k, flat (map_find k connections')
              = flat (map_find k connections)
                ++ filter (from_source k) (parsed_of parse [line]).
Proof.
  intros Hw E1 E2. exists connections. split; [exact E1|]. split; [exact Hw|].
  intros k. rewrite E2. cbn. rewrite app_nil_r. reflexivity.
Qed.

(** One turn of the loop, on a line that is skipped or parsed. *)
Lemma addLine_groups (parse : cstring -> outcome Connection)
    (connections : smap group) (line : cstring) :
  wf_groups connections -> skipped_or_parsed parse line ->
  exists connections',
    addLine parse connections line = Ret connections' /\
    wf_groups connections' /\
    forall k, flat (map_find k connections')
              = flat (map_find k connections)
                ++ filter (from_source k) (parsed_of parse [line]).
Proof.
  intros Hw Hl.
  destruct line as [|ch line]; [apply addLine_same; auto|].
  destruct Hl as [Hl|[Hl|[c Hl]]]; [discriminate | |].
  - apply addLine_same; [exact Hw | |].
    + unfold addLine. rewrite Hl. reflexivity.
    + unfold parsed_of. cbn [flat_map]. rewrite Hl. reflexivity.
  - unfold parsed_of, addLine. cbn [flat_map]. rewrite Hl. cbn [app filter].
    destruct (map_find (clientSource c) connections) as [v|] eqn:E.
    + eexists. split; [reflexivity|]. split.
      * destruct Hw as [Hs Hn]. split; [rewrite keys_map_set; exact Hs|].
        apply (Forall_set (fun g => g <> [])); [|exact Hn]. destruct v; discriminate.
      * intros k. rewrite (map_find_set _ _ _ _ _ E). unfold from_source.
        destruct (str_compare k (clientSource c)) eqn:Ek.
        -- apply str_compare_eq in Ek. subst k. rewrite E. reflexivity.
        -- rewrite app_nil_r. reflexivity.
        -- rewrite app_nil_r. reflexivity.
    + eexists. split; [reflexivity|]. split.
      * destruct Hw as [Hs Hn]. split; [apply sorted_emplace, Hs|].
        apply Forall_emplace; [discriminate | exact Hn].
      * intros k. rewrite (map_find_emplace _ _ _ _ E). unfold from_source.
        destruct (str_compare k (clientSource c)) eqn:Ek.
        -- apply str_compare_eq in Ek. subst k. rewrite E. reflexivity.
        -- rewrite app_nil_r. reflexivity.
        -- rewrite app_nil_r. reflexivity.
Qed.

Lemma parsed_of_cons (parse : cstring -> outcome Connection) (line : cstring)
    (rest : list cstring) :
  parsed_of parse (line :: rest) = parsed_of parse [line] ++ parsed_of parse rest.
Proof. unfold parsed_of. cbn [flat_map]. rewrite app_nil_r. reflexivity. Qed.

Lemma addLines_groups (parse : cstring -> outcome Connection) (logLines : list cstring) :
  Forall (skipped_or_parsed parse) logLines ->
  forall connections,
    wf_groups connections ->
    exists connections',
      addLines parse connections logLines = Ret connections' /\
      wf_groups connections' /\
      forall k, flat (map_find k connections')
                = flat (map_find k connections)
                  ++ filter (from_source k) (parsed_of parse logLines).
Proof.
  induction 1 as [|line rest Hl _ IH]; intros connections Hw.
  - exists connections. split; [reflexivity|]. split; [exact Hw|].
    intros k. cbn. rewrite app_nil_r. reflexivity.
  - destruct (addLine_groups parse connections line Hw Hl) as [c1 [E1 [W1 F1]]].
    destruct (IH c1 W1) as [c2 [E2 [W2 F2]]].
    exists c2. cbn [addLines]. rewrite E1. cbn [bind].
    split; [exact E2|]. split; [exact W2|].
    intros k. rewrite F2, F1, (parsed_of_cons parse line rest), filter_app, app_assoc.
    reflexivity.
Qed.

(** X11: when no line has undefined behaviour in the parser,
    [getConnectionAttempts] returns the groups in which every client has
    exactly the connections parsed from its lines, in the order of the
    lines: no connection is lost, doubled or put in the group of another
    client, and the lines that are empty or refused leave no trace. *)
Theorem getConnectionAttempts_groups (logLines : list cstring) :
  Forall (skipped_or_parsed parseConnectionFromLine) logLines ->
  exists connections,
    getConnectionAttempts logLines = Ret connections /\
    wf_groups connections /\
    (forall k, flat (map_find k connections)
               = filter (from_source k) (parsed_of parseConnectionFromLine logLines)) /\
    (forall k v connection,
       map_find k connections = Some v -> In connection v ->
       clientSource connection = k).
Proof.
  intros H.
  destruct (addLines_groups parseConnectionFromLine logLines H [] wf_groups_nil)
    as [m [E [W F]]].
  exists m. split; [exact E|]. split; [exact W|].
  assert (F' : forall k, flat (map_find k m)
                         = filter (from_source k)
                             (parsed_of parseConnectionFromLine logLines))
    by (intros k; rewrite F; reflexivity).
  split; [exact F'|].
  intros k v connection Hv Hin.
  specialize (F' k). rewrite Hv in F'. cbn [flat] in F'. rewrite F' in Hin.
  apply filter_In in Hin. apply from_source_eq. exact (proj2 Hin).
Qed.

Lemma getConnectionAttempts_groups_witness :
  exists connections,
    getConnectionAttempts ([] :: str "not a log line" :: lines_a) = Ret connections /\
    wf_groups connections /\
    (forall k, flat (map_find k connections)
               = filter (from_source k)
                   (parsed_of parseConnectionFromLine
                      ([] :: str "not a log line" :: lines_a))) /\
    (forall k v connection,
       map_find k connections = Some v -> In connection v ->
       clientSource connection = k).
Proof.
  apply (getConnectionAttempts_groups ([] :: str "not a log line" :: lines_a)).
  unfold lines_a.
  repeat apply Forall_cons; try apply Forall_nil.
  - left. reflexivity.
  - right. left. vm_compute. reflexivity.
  - right. right. eexists. vm_compute. reflexivity.
  - right. right. eexists. vm_compute. reflexivity.
  - right. right. eexists. vm_compute. reflexivity.
Defined.

(** ** What [merge] and [collect] keep *)

(** X12: the merge of two well-formed group maps returns a well-formed
    map that has a group for exactly the clients of either operand, and
    the group of a client holds the connections of its two groups, each
    once: nothing is lost or doubled, though the order is not the one of
    an append. *)
Theorem merge_keeps_records (a b : smap group) :
  wf_groups a -> wf_groups b ->
  exists m,
    merge a b = Ret m /\ wf_groups m /\
    (forall k, is_some (map_find k m)
               = is_some (map_find k a) || is_some (map_find k b)) /\
    (forall k, Permutation (flat (map_find k m))
                 (flat (map_find k a) ++ flat (map_find k b))).
Proof.
  intros Ha Hb. destruct (merge_spec b a Ha Hb) as [m [E [W F]]].
  exists m. split; [exact E|]. split; [exact W|].
  split; intros k; rewrite F; [apply combined_is_some | apply combined_perm].
Qed.

Lemma merge_keeps_records_witness :
  exists m,
    merge groups_a groups_c = Ret m /\ wf_groups m /\
    (forall k, is_some (map_find k m)
               = is_some (map_find k groups_a) || is_some (map_find k groups_c)) /\
    (forall k, Permutation (flat (map_find k m))
                 (flat (map_find k groups_a) ++ flat (map_find k groups_c))).
Proof.
  apply (merge_keeps_records groups_a groups_c); prove_wf_groups.
Defined.

Lemma map_emplace_last {V : Type} (k : cstring) (v : V) (m : smap V) :
  Forall (fun k' => str_lt k' k) (keys m) ->
  map_emplace k v m = m ++ [(k, v)].
Proof.
  induction m as [|[k1 v1] m IH]; cbn; intros H; [reflexivity|].
  inversion H as [|? ? H1 H2]; subst.
  assert (E : str_compare k k1 = Gt).
  { destruct (str_compare k k1) eqn:E; [| |reflexivity].
    - apply str_compare_eq in E. subst. exfalso. exact (str_lt_irrefl _ H1).
    - exfalso. exact (str_lt_irrefl _ (str_lt_trans _ _ _ H1 E)). }
  rewrite E, (IH H2). reflexivity.
Qed.

Lemma sorted_app_before (l1 l2 : list cstring) (k : cstring) :
  StronglySorted str_lt (l1 ++ k :: l2) -> Forall (fun k' => str_lt k' k) l1.
Proof.
  induction l1 as [|a l1 IH]; cbn; intros H; [constructor|].
  inversion H as [|? ? Hs Hf]; subst. constructor; [|exact (IH Hs)].
  rewrite Forall_forall in Hf. apply Hf. apply in_or_app. right. left. reflexivity.
Qed.

Lemma merge_append (rest : smap group) :
  forall acc,
    StronglySorted str_lt (keys (acc ++ rest)) ->
    merge acc rest = Ret (acc ++ rest).
Proof.
  induction rest as [|[k v] rest IH]; intros acc H.
  - rewrite app_nil_r. reflexivity.
  - cbn [merge]. unfold mergeEntry. cbn [fst snd].
    unfold keys in H. rewrite map_app in H. cbn [map fst] in H.
    pose proof (sorted_app_before _ _ _ H) as Hb.
    assert (Hn : map_find k acc = None).
    { apply map_find_None. intros Hin. rewrite Forall_forall in Hb.
      exact (str_lt_irrefl _ (Hb k Hin)). }
    rewrite Hn. cbn [bind].
    rewrite (map_emplace_last k v acc Hb).
    rewrite (IH (acc ++ [(k, v)])); [rewrite <- app_assoc; reflexivity|].
    unfold keys. rewrite <- app_assoc, map_app. exact H.
Qed.

(** X13: the empty map is neutral for the merge: merging a map with
    keys in ascending order into the empty map gives that map as it is,
    and merging the empty map into a map leaves it as it is; so the groups
    of the first source are taken over unchanged. *)
Theorem merge_empty (m : smap group) :
  StronglySorted str_lt (keys m) ->
  merge [] m = Ret m /\ merge m [] = Ret m.
Proof.
  intros H. split; [|reflexivity].
  exact (merge_append m [] H).
Qed.

Lemma merge_empty_witness :
  merge [] groups_a = Ret groups_a /\ merge groups_a [] = Ret groups_a.
Proof.
  apply (merge_empty groups_a). repeat constructor.
Defined.

Lemma collect_groups (lines : smap (list cstring)) :
  Forall (fun entry => Forall (skipped_or_parsed parseConnectionFromLine) (snd entry))
    lines ->
  forall total,
    wf_groups total ->
    exists total',
      collect total lines = Ret total' /\ wf_groups total' /\
      forall k, Permutation (flat (map_find k total'))
                  (flat (map_find k total)
                   ++ filter (from_source k) (all_parsed lines)).
Proof.
  induction 1 as [|[path logLines] rest Hl _ IH]; intros total Hw.
  - exists total. split; [reflexivity|]. split; [exact Hw|].
    intros k. cbn. rewrite app_nil_r. reflexivity.
  - cbn [snd] in Hl.
    destruct (addLines_groups parseConnectionFromLine logLines Hl [] wf_groups_nil)
      as [c [Ec [Wc Fc]]].
    destruct (merge_spec c total Hw Wc) as [t1 [E1 [W1 F1]]].
    destruct (IH t1 W1) as [t2 [E2 [W2 F2]]].
    exists t2. cbn [collect]. unfold getConnectionAttempts. rewrite Ec. cbn [bind].
    rewrite E1. cbn [bind]. split; [exact E2|]. split; [exact W2|].
    intros k. rewrite (F2 k), F1, combined_perm, Fc.
    unfold all_parsed. cbn [flat_map snd map_find flat app].
    rewrite filter_app, app_assoc. reflexivity.
Qed.

(** X14: end to end, when no line has undefined behaviour in the
    parser: the groups that [main] collects from all the sources hold,
    for every client, the connections parsed from its lines in all the
    sources, each once; and although the merge does not keep them in
    the order of the lines, the counter that the report prints for a
    counted status code is the number of those connections with that
    code, on 32 bits. *)
Theorem collect_counts_all_lines (lines : smap (list cstring)) :
  Forall (fun entry => Forall (skipped_or_parsed parseConnectionFromLine) (snd entry))
    lines ->
  exists total,
    collect [] lines = Ret total /\ wf_groups total /\
    (forall k, Permutation (flat (map_find k total))
                 (filter (from_source k) (all_parsed lines))) /\
    (forall k v code,
       map_find k total = Some v -> In code tracked ->
       counter (tally v) code
       = Some (wrap32 (count_status code (filter (from_source k) (all_parsed lines))))).
Proof.
  intros H.
  destruct (collect_groups lines H [] wf_groups_nil) as [total [E [W F]]].
  exists total. split; [exact E|]. split; [exact W|].
  assert (F' : forall k, Permutation (flat (map_find k total))
                           (filter (from_source k) (all_parsed lines)))
    by (intros k; exact (F k)).
  split; [exact F'|].
  intros k v code Hv Hc. specialize (F' k). rewrite Hv in F'. cbn [flat] in F'.
  rewrite (counter_tally v code Hc), (count_status_perm code _ _ F'). reflexivity.
Qed.

Lemma collect_counts_all_lines_witness :
  exists total,
    collect [] [(str "a.log", lines_a); (str "b.log", lines_b)] = Ret total /\
    wf_groups total /\
    (forall k, Permutation (flat (map_find k total))
                 (filter (from_source k)
                    (all_parsed [(str "a.log", lines_a); (str "b.log", lines_b)]))) /\
    (forall k v code,
       map_find k total = Some v -> In code tracked ->
       counter (tally v) code
       = Some (wrap32 (count_status code
                         (filter (from_source k)
                            (all_parsed [(str "a.log", lines_a); (str "b.log", lines_b)]))))).
Proof.
  apply (collect_counts_all_lines [(str "a.log", lines_a); (str "b.log", lines_b)]).
  unfold lines_a, lines_b.
  repeat (apply Forall_cons || apply Forall_nil); cbn [snd];
    right; right; eexists; vm_compute; reflexivity.
Defined.

(** ** A run without any connection *)

Lemma addLines_all_skipped (parse : cstring -> outcome Connection)
    (logLines : list cstring) (connections : smap group) :
  Forall (fun line => line = [] \/ parse line = Throw) logLines ->
  addLines parse connections logLines = Ret connections.
Proof.
  induction 1 as [|line rest Hl _ IH]; [reflexivity|].
  cbn [addLines]. unfold addLine.
  destruct line as [|ch line]; [exact IH|].
  destruct Hl as [Hl|Hl]; [discriminate|]. rewrite Hl. exact IH.
Qed.

(** X15: when every line of every source is empty or refused by the
    parser, and also when there is no source at all, [main] still writes
    its report: the title and a count of 0 clients, without any table. *)
Theorem main_without_connections (lines : smap (list cstring)) :
  Forall (fun entry =>
            Forall (fun line => line = [] \/ parseConnectionFromLine line = Throw)
              (snd entry))
    lines ->
  main lines
  = Ret (str "# HTTPD Report" ++ NL ++ str "## Total Unique IPs: 0" ++ NL ++ NL).
Proof.
  intros H.
  assert (E : collect [] lines = Ret []).
  { induction H as [|[path logLines] rest Hl _ IH]; [reflexivity|].
    cbn [collect]. unfold getConnectionAttempts.
    rewrite (addLines_all_skipped _ _ _ Hl). cbn [bind merge]. exact IH. }
  unfold main. rewrite E. reflexivity.
Qed.

Lemma main_without_connections_witness :
  main [(str "access.log", [str "not a log line"; []]); (str "other.log", [])]
  = Ret (str "# HTTPD Report" ++ NL ++ str "## Total Unique IPs: 0" ++ NL ++ NL).
Proof.
  apply (main_without_connections
           [(str "access.log", [str "not a log line"; []]); (str "other.log", [])]).
  repeat (apply Forall_cons || apply Forall_nil); cbn [snd].
  - right. vm_compute. reflexivity.
  - left. reflexivity.
Defined.

(** ** Trimming *)

Lemma find_if_not_spec (pred : ascii -> outcome bool) (range r : cstring) :
  find_if_not pred range = Ret r ->
  exists pre,
    range = pre ++ r /\
    (forall x, In x pre -> pred x = Ret true) /\
    (forall c t, r = c :: t -> pred c = Ret false).
Proof.
  revert r. induction range as [|a range IH]; cbn [find_if_not]; intros r H.
  - inversion H; subst. exists []. split; [reflexivity|].
    split; [intros x [] | intros c t E; discriminate].
  - destruct (pred a) as [[|]| | |] eqn:Ea; cbn [bind] in H; try discriminate.
    + destruct (IH r H) as [pre [E [Hp Hr]]].
      exists (a :: pre). split; [cbn; f_equal; exact E|]. split; [|exact Hr].
      intros x [<-|Hx]; [exact Ea | exact (Hp x Hx)].
    + inversion H; subst. exists []. split; [reflexivity|].
      split; [intros x []|]. intros c t E. inversion E; subst. exact Ea.
Qed.

Lemma find_if_not_stops (pred : ascii -> outcome bool) (c : ascii) (t : cstring) :
  pred c = Ret false -> find_if_not pred (c :: t) = Ret (c :: t).
Proof. intros H. cbn [find_if_not]. rewrite H. reflexivity. Qed.

Lemma find_if_not_returns (pred : ascii -> outcome bool) (range : cstring) :
  (forall c, exists b, pred c = Ret b) ->
  exists r, find_if_not pred range = Ret r.
Proof.
  intros H. induction range as [|a range [r IH]]; cbn [find_if_not];
    [eexists; reflexivity|].
  destruct (H a) as [[|] E]; rewrite E; cbn [bind]; eexists; eauto.
Qed.

Lemma trimEnd_spec (char_signed : bool) (s trimChar e : cstring) :
  trimEnd char_signed s trimChar = Ret e ->
  exists post,
    s = e ++ post /\
    (forall x, In x post -> shouldTrimChar char_signed trimChar x = Ret true) /\
    (forall u c, e = u ++ [c] -> shouldTrimChar char_signed trimChar c = Ret false).
Proof.
  unfold trimEnd. intros H.
  destruct (find_if_not (shouldTrimChar char_signed trimChar) (rev s)) as [k| | |] eqn:E;
    try discriminate.
  cbn [bind] in H. inversion H; subst e. clear H.
  destruct (find_if_not_spec _ _ _ E) as [pre [Er [Hp Hk]]].
  exists (rev pre). split.
  - rewrite <- (rev_involutive s), Er, rev_app_distr. reflexivity.
  - split.
    + intros x Hx. apply Hp. apply in_rev. exact Hx.
    + intros u c Eu. apply (Hk c (rev u)).
      rewrite <- (rev_involutive k), Eu, rev_app_distr. reflexivity.
Qed.

(** X16: trimming is idempotent: what [trim] returns is returned
    unchanged when it is trimmed again with the same characters. *)
Theorem trim_idempotent (char_signed : bool) (s trimChar r : cstring) :
  trim char_signed s trimChar = Ret r ->
  trim char_signed r trimChar = Ret r.
Proof.
  unfold trim. intros H.
  destruct (trimEnd char_signed s trimChar) as [e| | |] eqn:Ee; try discriminate.
  cbn [bind] in H. unfold trimStart in H.
  destruct (trimEnd_spec _ _ _ _ Ee) as [post [_ [_ Hlast]]].
  destruct (find_if_not_spec _ _ _ H) as [pre [Epre [_ Hhead]]].
  destruct r as [|c t].
  - reflexivity.
  - destruct (exists_last (l := c :: t) ltac:(discriminate)) as [r0 [d Er]].
    assert (Hd : shouldTrimChar char_signed trimChar d = Ret false).
    { apply (Hlast (pre ++ r0) d). rewrite Epre, Er, app_assoc. reflexivity. }
    assert (Et : trimEnd char_signed (c :: t) trimChar = Ret (c :: t)).
    { unfold trimEnd. rewrite Er, rev_app_distr. cbn [rev app].
      rewrite (find_if_not_stops _ d (rev r0) Hd). cbn [bind rev].
      rewrite rev_involutive. reflexivity. }
    rewrite Et. cbn [bind]. unfold trimStart.
    apply find_if_not_stops. exact (Hhead c t eq_refl).
Qed.

Lemma trim_idempotent_witness :
  trim true (str "  /index.html   ") [] = Ret (str "/index.html") /\
  trim true (str "/index.html") [] = Ret (str "/index.html").
Proof.
  split; [vm_compute; reflexivity|].
  apply (trim_idempotent true (str "  /index.html   ") [] (str "/index.html")).
  vm_compute. reflexivity.
Defined.

Lemma find_absent (s : cstring) (c : ascii) :
  size s < npos -> (find s c 0 = npos <-> ~ In c s).
Proof.
  intros Hlen. split.
  - intros H Hin. apply in_split in Hin. destruct Hin as [l1 [l2 E]].
    assert (Hex : exists mid post, s = mid ++ c :: post /\ ~ In c mid).
    { clear H Hlen. subst s. induction l1 as [|a l1 IH].
      - exists [], l2. split; [reflexivity | intros []].
      - destruct (Ascii.eqb_spec c a) as [->|Hne].
        + exists [], (l1 ++ a :: l2). split; [reflexivity | intros []].
        + destruct IH as [mid [post [E Hn]]].
          exists (a :: mid), post. split; [cbn; f_equal; exact E|].
          intros [Hx|Hx]; [congruence | exact (Hn Hx)]. }
    destruct Hex as [mid [post [E' Hn]]].
    rewrite (find_skip s [] mid post c 0 E' eq_refl Hn) in H.
    rewrite E' in Hlen. rewrite size_app, size_cons in Hlen.
    pose proof (size_nonneg post). rewrite size_nil in H. lia.
  - intros H. exact (find_none s [] s c 0 eq_refl ltac:(rewrite size_nil; lia) H).
Qed.

Lemma shouldTrimChar_given (char_signed : bool) (trimChar : cstring) (c : ascii) :
  trimChar <> [] -> size trimChar < npos ->
  (In c trimChar -> shouldTrimChar char_signed trimChar c = Ret true) /\
  (~ In c trimChar -> shouldTrimChar char_signed trimChar c = Ret false).
Proof.
  intros Hne Hlen. unfold shouldTrimChar.
  assert (E : (size trimChar =? 0) = false).
  { apply Z.eqb_neq. destruct trimChar; [congruence|]. rewrite size_cons.
    pose proof (size_nonneg trimChar). lia. }
  rewrite E. pose proof (find_absent trimChar c Hlen) as Hf.
  split; intros H.
  - destruct (find trimChar c 0 =? npos) eqn:En; [|reflexivity].
    apply Z.eqb_eq in En. apply Hf in En. contradiction.
  - apply Hf in H. rewrite H, Z.eqb_refl. reflexivity.
Qed.

(** X17: with trim characters given, [trim] always returns, and it
    returns the middle of the string: what it cuts off in front and
    behind is made of trim characters only, and what it keeps neither
    begins nor ends with a trim character. *)
Theorem trim_cuts_both_ends (char_signed : bool) (s trimChar : cstring) :
  trimChar <> [] -> size trimChar < npos ->
  exists pre r post,
    trim char_signed s trimChar = Ret r /\
    s = pre ++ r ++ post /\
    (forall x, In x pre -> In x trimChar) /\
    (forall x, In x post -> In x trimChar) /\
    (forall c t, r = c :: t -> ~ In c trimChar) /\
    (forall u c, r = u ++ [c] -> ~ In c trimChar).
Proof.
  intros Hne Hlen.
  pose proof (fun c => shouldTrimChar_given char_signed trimChar c Hne Hlen) as Hg.
  assert (Htot : forall c, exists b, shouldTrimChar char_signed trimChar c = Ret b).
  { intros c. unfold shouldTrimChar.
    destruct (size trimChar =? 0) eqn:E; [|eexists; reflexivity].
    apply Z.eqb_eq in E. destruct trimChar; [congruence|].
    rewrite size_cons in E. pose proof (size_nonneg trimChar). lia. }
  assert (Htrue : forall x, shouldTrimChar char_signed trimChar x = Ret true ->
                            In x trimChar).
  { intros x Hx. destruct (in_dec ascii_dec x trimChar) as [Hin|Hn]; [exact Hin|].
    rewrite (proj2 (Hg x) Hn) in Hx. discriminate. }
  assert (Hfalse : forall x, shouldTrimChar char_signed trimChar x = Ret false ->
                             ~ In x trimChar).
  { intros x Hx Hin. rewrite (proj1 (Hg x) Hin) in Hx. discriminate. }
  destruct (find_if_not_returns _ (rev s) Htot) as [k Ek].
  assert (Ee : trimEnd char_signed s trimChar = Ret (rev k))
    by (unfold trimEnd; rewrite Ek; reflexivity).
  destruct (trimEnd_spec _ _ _ _ Ee) as [post [Es [Hpost Hlast]]].
  destruct (find_if_not_returns _ (rev k) Htot) as [r Er].
  destruct (find_if_not_spec _ _ _ Er) as [pre [Epre [Hpre Hhead]]].
  exists pre, r, post.
  split; [unfold trim, trimStart; rewrite Ee; cbn [bind]; exact Er|].
  split; [rewrite Es, Epre, <- app_assoc; reflexivity|].
  split; [intros x Hx; exact (Htrue x (Hpre x Hx))|].
  split; [intros x Hx; exact (Htrue x (Hpost x Hx))|].
  split; [intros c t E; exact (Hfalse c (Hhead c t E))|].
  intros u c E. apply Hfalse. apply (Hlast (pre ++ u) c).
  rewrite Epre, E, app_assoc. reflexivity.
Qed.

Lemma trim_cuts_both_ends_witness :
  exists pre r post,
    trim true (str "--a-b--") (str "-") = Ret r /\
    str "--a-b--" = pre ++ r ++ post /\
    (forall x, In x pre -> In x (str "-")) /\
    (forall x, In x post -> In x (str "-")) /\
    (forall c t, r = c :: t -> ~ In c (str "-")) /\
    (forall u c, r = u ++ [c] -> ~ In c (str "-")).
Proof.
  apply (trim_cuts_both_ends true (str "--a-b--") (str "-"));
    [discriminate | vm_compute; reflexivity].
Defined.

(** ** Gzip detection *)

Lemma N_of_ascii_bound (c : ascii) : (N_of_ascii c < 256)%N.
Proof. destruct c as [[] [] [] [] [] [] [] []]; vm_compute; reflexivity. Qed.

Lemma char_value_signed (c : ascii) : -128 <= char_value true c <= 127.
Proof.
  unfold char_value. pose proof (N_of_ascii_bound c) as H. cbn [andb].
  destruct (128 <=? Z.of_N (N_of_ascii c)) eqn:E;
    [apply Z.leb_le in E | apply Z.leb_gt in E]; lia.
Qed.

(** X18: where [char] is signed, neither variant of [isGzipped] ever
    answers yes: the second byte of the buffer is compared as a [char]
    with [0x8b], which no signed [char] equals, so a gzipped file is not
    told apart from a text file. *)
Theorem isGzipped_signed_never (content : cstring) :
  isGzipped true content = false /\ Extensions.isGzipped true content = false.
Proof.
  assert (H : forall b0 b1, gzip_magic true b0 b1 = false).
  { intros b0 b1. unfold gzip_magic.
    pose proof (char_value_signed b1) as Hb.
    assert (E : (char_value true b1 =? 139) = false) by (apply Z.eqb_neq; lia).
    rewrite E. apply andb_false_r. }
  split; [apply H|].
  unfold Extensions.isGzipped. destruct (size content <? 2); [reflexivity | apply H].
Qed.

Lemma char_value_unsigned (c : ascii) (n : N) :
  (n < 256)%N -> (char_value false c =? Z.of_N n) = true <-> c = ascii_of_N n.
Proof.
  intros Hn. unfold char_value. cbn [andb]. rewrite Z.eqb_eq. split.
  - intros H. apply N2Z.inj in H. rewrite <- H, ascii_N_embedding. reflexivity.
  - intros ->. rewrite N_ascii_embedding by exact Hn. reflexivity.
Qed.

(** X19: the two variants of [isGzipped] give the same answer on every
    file, whether [char] is signed or not; and where [char] is unsigned
    the answer is yes exactly for the files that begin with the bytes
    [0x1f 0x8b]. *)
Theorem isGzipped_variants_agree (char_signed : bool) (content : cstring) :
  Extensions.isGzipped char_signed content = isGzipped char_signed content /\
  (isGzipped false content = true <->
   exists rest, content = ascii_of_N 31 :: ascii_of_N 139 :: rest).
Proof.
  split.
  - unfold Extensions.isGzipped, isGzipped.
    destruct (size content <? 2) eqn:E; [|reflexivity].
    apply Z.ltb_lt in E.
    assert (Hn : nth 1 content NUL = NUL).
    { destruct content as [|a [|b content]]; try reflexivity.
      rewrite !size_cons in E. pose proof (size_nonneg content). lia. }
    rewrite Hn. unfold gzip_magic.
    assert (E0 : (char_value char_signed NUL =? 139) = false)
      by (destruct char_signed; reflexivity).
    rewrite E0, andb_false_r. reflexivity.
  - unfold isGzipped, gzip_magic. rewrite andb_true_iff.
    change 31 with (Z.of_N 31). change 139 with (Z.of_N 139).
    rewrite !char_value_unsigned by reflexivity.
    split.
    + intros [H0 H1].
      destruct content as [|a [|b content]]; cbn [nth] in *;
        try (vm_compute in H0; discriminate); try (vm_compute in H1; discriminate).
      exists content. subst. reflexivity.
    + intros [rest ->]. split; reflexivity.
Qed.

(** ** Reading the lines *)

Lemma starts_with_spec (needle s : cstring) :
  starts_with needle s = true <-> exists post, s = needle ++ post.
Proof.
  revert s. induction needle as [|a needle IH]; intros s; cbn [starts_with].
  - split; [intros _; exists s; reflexivity | reflexivity].
  - destruct s as [|b s].
    + split; [discriminate | intros [post E]; discriminate].
    + rewrite andb_true_iff, IH. split.
      * intros [Hab [post ->]]. apply Ascii.eqb_eq in Hab. subst b.
        exists post. reflexivity.
      * intros [post E]. inversion E; subst. split; [apply Ascii.eqb_refl|].
        exists post. reflexivity.
Qed.

Lemma index_of_string_Some (needle s : cstring) (i : nat) :
  index_of_string needle s = Some i ->
  (i <= List.length s)%nat /\ contains needle s.
Proof.
  revert i. induction s as [|b s IH]; intros i; cbn [index_of_string].
  - destruct (starts_with needle []) eqn:E; [|discriminate].
    intros H. inversion H; subst. split; [cbn; lia|].
    apply starts_with_spec in E. destruct E as [post E].
    exists [], post. exact E.
  - destruct (starts_with needle (b :: s)) eqn:E.
    + intros H. inversion H; subst. split; [cbn; lia|].
      apply starts_with_spec in E. destruct E as [post E].
      exists [], post. exact E.
    + destruct (index_of_string needle s) as [j|]; cbn [option_map]; [|discriminate].
      intros H. inversion H; subst.
      destruct (IH j eq_refl) as [Hj [pre [post Es]]].
      split; [cbn; lia|]. exists (b :: pre), post. cbn. f_equal. exact Es.
Qed.

Lemma index_of_string_None (needle s : cstring) :
  index_of_string needle s = None -> ~ contains needle s.
Proof.
  induction s as [|b s IH]; cbn [index_of_string].
  - destruct (starts_with needle []) eqn:E; [discriminate|].
    intros _ [pre [post Es]]. destruct pre; [|discriminate].
    assert (H : starts_with needle [] = true)
      by (apply starts_with_spec; exists post; exact Es).
    congruence.
  - destruct (starts_with needle (b :: s)) eqn:E; [discriminate|].
    destruct (index_of_string needle s) as [j|]; cbn [option_map]; [discriminate|].
    intros _ [pre [post Es]]. destruct pre as [|a pre].
    + assert (H : starts_with needle (b :: s) = true)
        by (apply starts_with_spec; exists post; exact Es).
      congruence.
    + inversion Es; subst. apply (IH eq_refl). exists pre, post. reflexivity.
Qed.

Lemma find_string_contains (needle s : cstring) :
  size s < npos ->
  negb (find_string s needle 0 =? npos) = true <-> contains needle s.
Proof.
  intros Hlen. unfold find_string.
  pose proof (size_nonneg s) as Hs.
  assert (E : (size s <? 0) = false) by (apply Z.ltb_ge; lia).
  rewrite E. cbn [Z.to_nat skipn].
  destruct (index_of_string needle s) as [i|] eqn:Ei.
  - destruct (index_of_string_Some _ _ _ Ei) as [Hi Hc].
    split; [intros _; exact Hc|]. intros _.
    apply negb_true_iff, Z.eqb_neq. unfold size in Hlen. lia.
  - rewrite Z.eqb_refl. split; [discriminate|].
    intros Hc. destruct (index_of_string_None _ _ Ei Hc).
Qed.

Lemma readLines_filter (stream output : list cstring) :
  readLines stream output
  = output
    ++ filter (fun line => negb (find_string line HTTP_MARKER 0 =? npos)) stream.
Proof.
  unfold readLines. revert output.
  induction stream as [|line stream IH]; intros output; cbn [fold_left filter].
  - rewrite app_nil_r. reflexivity.
  - rewrite IH.
    destruct (negb (find_string line HTTP_MARKER 0 =? npos)).
    + rewrite <- app_assoc. reflexivity.
    + reflexivity.
Qed.

(** X20: reading a stream keeps what [output] held and appends, in the
    order of the stream, exactly the lines in which [HTTP/1.1] occurs;
    every other line is dropped before it reaches the parser. *)
Theorem readLines_keeps_marked (stream output : list cstring) :
  Forall (fun line => size line < npos) stream ->
  exists keep : cstring -> bool,
    readLines stream output = output ++ filter keep stream /\
    (forall line, In line stream ->
                  (keep line = true <-> contains HTTP_MARKER line)) /\
    (forall line, In line (readLines stream output) <->
                  In line output \/ (In line stream /\ contains HTTP_MARKER line)).
Proof.
  intros Hlen.
  exists (fun line => negb (find_string line HTTP_MARKER 0 =? npos)).
  assert (Hk : forall line, In line stream ->
                 (negb (find_string line HTTP_MARKER 0 =? npos) = true
                  <-> contains HTTP_MARKER line)).
  { intros line Hin. apply find_string_contains.
    rewrite Forall_forall in Hlen. exact (Hlen line Hin). }
  split; [apply readLines_filter|]. split; [exact Hk|].
  intros line. rewrite readLines_filter, in_app_iff, filter_In.
  split.
  - intros [H|[Hin H]]; [left; exact H|]. right. split; [exact Hin|].
    apply (Hk line Hin). exact H.
  - intros [H|[Hin H]]; [left; exact H|]. right. split; [exact Hin|].
    apply (Hk line Hin). exact H.
Qed.

Lemma readLines_keeps_marked_witness :
  exists keep : cstring -> bool,
    readLines [str "GET / HTTP/1.1"; str "GET / HTTP/1.0"; []; str "HTTP/1.1"] []
    = [] ++ filter keep [str "GET / HTTP/1.1"; str "GET / HTTP/1.0"; []; str "HTTP/1.1"] /\
    (forall line,
        In line [str "GET / HTTP/1.1"; str "GET / HTTP/1.0"; []; str "HTTP/1.1"] ->
        (keep line = true <-> contains HTTP_MARKER line)) /\
    (forall line,
        In line (readLines [str "GET / HTTP/1.1"; str "GET / HTTP/1.0"; []; str "HTTP/1.1"] [])
        <-> In line [] \/
            (In line [str "GET / HTTP/1.1"; str "GET / HTTP/1.0"; []; str "HTTP/1.1"]
             /\ contains HTTP_MARKER line)).
Proof.
  apply (readLines_keeps_marked
           [str "GET / HTTP/1.1"; str "GET / HTTP/1.0"; []; str "HTTP/1.1"] []).
  repeat apply Forall_cons; try apply Forall_nil; vm_compute; reflexivity.
Defined.

(** ** Rows of a connection *)

Lemma digit_char_no_bar (d : Z) : 0 <= d < 10 -> mem_ascii (digit_char d) BAR = false.
Proof.
  intros H.
  assert (E : d = 0 \/ d = 1 \/ d = 2 \/ d = 3 \/ d = 4 \/ d = 5 \/ d = 6 \/ d = 7
              \/ d = 8 \/ d = 9) by lia.
  repeat (destruct E as [->|E]; [reflexivity|]). subst. reflexivity.
Qed.

Lemma to_string_fuel_no_bar (fuel : nat) (n : Z) (acc : cstring) :
  free_of BAR acc -> free_of BAR (to_string_fuel fuel n acc).
Proof.
  revert n acc. induction fuel as [|fuel IH]; intros n acc Hacc;
    cbn [to_string_fuel]; [exact Hacc|].
  assert (Hd : free_of BAR (digit_char (n mod 10) :: acc)).
  { intros x [<-|Hx]; [|exact (Hacc x Hx)].
    apply digit_char_no_bar. apply Z.mod_pos_bound. lia. }
  destruct (n <? 10); [exact Hd | apply IH; exact Hd].
Qed.

Lemma int_to_string_no_bar (z : Z) : free_of BAR (int_to_string z).
Proof.
  unfold int_to_string.
  assert (H : forall n, free_of BAR (to_string n))
    by (intros n; apply to_string_fuel_no_bar; intros x []).
  destruct (z <? 0); [|apply H].
  intros x [<-|Hx]; [reflexivity | exact (H _ x Hx)].
Qed.

(** X21: the row of a connection splits at the bars into its cells
    again: when no text field holds a bar and the client source is not
    empty, [splitString] on the row gives the seven text fields, the two
    numbers in decimal, and the end of line behind the last bar; empty
    fields behind the first come back as empty tokens. *)
Theorem toMarkdownRow_splits (c : Connection) (tokens : list cstring) :
  clientSource c <> [] ->
  free_of BAR (clientSource c) -> free_of BAR (clientId c) ->
  free_of BAR (userId c) -> free_of BAR (timestamp c) ->
  free_of BAR (httpRequestMethod c) -> free_of BAR (requestUri c) ->
  free_of BAR (httpVersion c) ->
  size (toMarkdownRow c) < npos ->
  splitString (toMarkdownRow c) BAR tokens = Ret (tokens ++ cells c).
Proof.
  intros Hne H1 H2 H3 H4 H5 H6 H7 Hlen.
  rewrite (splitString_tokens_of _ _ _ Hlen). do 2 f_equal.
  unfold tokens_of, toMarkdownRow, cells.
  assert (Hbar : mem_ascii "|"%char BAR = true) by reflexivity.
  pose proof (int_to_string_no_bar (httpStatusCode c)) as H8.
  pose proof (int_to_string_no_bar (responseSize c)) as H9.
  assert (H10 : free_of BAR NL) by (intros x [<-|[]]; reflexivity).
  destruct (clientSource c) as [|a src] eqn:Esrc; [congruence|].
  change BAR with ["|"%char]. cbn [app drop_delimiters].
  change ["|"%char] with BAR. rewrite Hbar.
  cbn [drop_delimiters]. rewrite (H1 a (or_introl eq_refl)).
  change (a :: src ++ "|"%char :: ?x) with ((a :: src) ++ "|"%char :: x).
  rewrite (split_fields_delimiter BAR (a :: src) _ _ H1 Hbar).
  rewrite (split_fields_delimiter BAR (clientId c) _ _ H2 Hbar).
  rewrite (split_fields_delimiter BAR (userId c) _ _ H3 Hbar).
  rewrite (split_fields_delimiter BAR (timestamp c) _ _ H4 Hbar).
  rewrite (split_fields_delimiter BAR (httpRequestMethod c) _ _ H5 Hbar).
  rewrite (split_fields_delimiter BAR (requestUri c) _ _ H6 Hbar).
  rewrite (split_fields_delimiter BAR (httpVersion c) _ _ H7 Hbar).
  rewrite (split_fields_delimiter BAR _ _ _ H8 Hbar).
  rewrite (split_fields_delimiter BAR _ _ _ H9 Hbar).
  rewrite (split_fields_free _ _ H10). reflexivity.
Qed.

Lemma toMarkdownRow_splits_witness :
  splitString (toMarkdownRow example_connection) BAR []
  = Ret ([] ++ cells example_connection).
Proof.
  apply (toMarkdownRow_splits example_connection []);
    try discriminate; try (vm_compute; reflexivity);
    intros x Hx; cbn in Hx;
    repeat (destruct Hx as [<-|Hx]; [reflexivity|]); destruct Hx.
Defined.
